(** * etl::queue_spsc_locked — a shallow embedding and its verification

    Source: [include/etl/queue_spsc_locked.h].

    The header declares three classes, modelled in the order of the file:

    - [iqueue_spsc_locked_base]: buffer pointer, write index, read index,
      element count and capacity, with the unsynchronised
      [*_implementation] members and their [*_from_unlocked] entry points;
    - [iqueue_spsc_locked]: the same operations bracketed by the injected
      [lock] / [unlock] callables;
    - [queue_spsc_locked]: owner of the uninitialised buffer; its destructor
      runs the locked [clear].

    Modelling conventions.

    - [size_type] is an unsigned integer of [size_bits] bits; values are [Z]
      and every [++], [--] and [-] of the source is followed by
      [to_size_type], the reduction modulo [2 ^ size_bits].
    - The buffer is a list of slots; a slot is [None] while it holds no
      constructed element and [Some v] while it holds the live element [v].
    - Member functions are computations in a state-and-error monad [M].  The
      error ([None]) stands for an access the C++ abstract machine leaves
      undefined: placement-new outside the buffer, or reading / destroying a
      slot that holds no live element.
    - The state carries, besides the queue, the state [Env] of the embedding
      application on which the two callables act, and a chronological trace
      of the calls made to the callables and to the constructors and
      destructor of [T].  The callables are opaque to the queue and do not
      touch it.
    - A capacity is positive and fits [size_type]: the array bound
      [buffer[MAX_SIZE]] and the static assertion of [queue_spsc_locked]. *)

From Stdlib Require Import ZArith Lia.
From stdpp Require Import base option list.
From Equations Require Import Equations.

Local Open Scope Z_scope.

Section QueueSpscLocked.

(** [T]: the element type.  [Args]: a pack of constructor arguments, and
    [construct] the constructor [T(args...)] that [emplace] forwards to. *)
Context {T Args Env : Type}.
Variable construct : Args → T.

(** Width of [size_type] ([etl::size_type_lookup<MEMORY_MODEL>::type]). *)
Variable size_bits : positive.

Definition size_type_modulus : Z := 2 ^ Z.pos size_bits.

(** [etl::integral_limits<size_type>::max] *)
Definition integral_limits_max : Z := size_type_modulus - 1.

(** Conversion of an integer result to [size_type]. *)
Definition to_size_type (z : Z) : Z := z mod size_type_modulus.

(** ** Class iqueue_spsc_locked_base: data members *)

Record iqueue_spsc_locked_base : Type := Build_base {
  p_buffer : list (option T);   (* The internal buffer. *)
  write_index : Z;              (* Where to input new data. *)
  read_index : Z;               (* Where to get the oldest data. *)
  current_size : Z;             (* The current size of the queue. *)
  MAX_SIZE : Z                  (* The maximum number of items in the queue. *)
}.

Definition set_p_buffer (b : list (option T)) (q : iqueue_spsc_locked_base) :=
  Build_base b (write_index q) (read_index q) (current_size q) (MAX_SIZE q).
Definition set_write_index (i : Z) (q : iqueue_spsc_locked_base) :=
  Build_base (p_buffer q) i (read_index q) (current_size q) (MAX_SIZE q).
Definition set_read_index (i : Z) (q : iqueue_spsc_locked_base) :=
  Build_base (p_buffer q) (write_index q) i (current_size q) (MAX_SIZE q).
Definition set_current_size (n : Z) (q : iqueue_spsc_locked_base) :=
  Build_base (p_buffer q) (write_index q) (read_index q) n (MAX_SIZE q).

(** [p_buffer[i]]: [None] when [i] is outside the buffer, otherwise the
    slot, which is itself [None] (no object) or [Some v]. *)
Definition slot (q : iqueue_spsc_locked_base) (i : Z) : option (option T) :=
  if decide (0 ≤ i) then p_buffer q !! Z.to_nat i else None.

(** ** Calls observed during execution *)

Inductive event : Type :=
| EvLock                          (* lock() *)
| EvUnlock                        (* unlock() *)
| EvConstruct (i : Z) (v : T)     (* ::new (&p_buffer[i]) T(v) *)
| EvDestruct (i : Z) (v : T).     (* p_buffer[i].~T() *)

Record machine : Type := Build_machine {
  que : iqueue_spsc_locked_base;
  env : Env;
  trace : list event
}.

(** ** The monad of member functions *)

Definition M (A : Type) : Type := machine → option (A * machine).

#[local] Instance M_ret : MRet M := λ A a m, Some (a, m).
#[local] Instance M_bind : MBind M := λ A B k c m,
  match c m with
  | Some (a, m') => k a m'
  | None => None
  end.

#[local] Instance M_fmap : FMap M := λ A B f c m,
  match c m with
  | Some (a, m') => Some (f a, m')
  | None => None
  end.

Definition undefined {A} : M A := λ _, None.

Definition gets {A} (f : iqueue_spsc_locked_base → A) : M A :=
  λ m, Some (f (que m), m).

Definition modify (f : iqueue_spsc_locked_base → iqueue_spsc_locked_base) : M unit :=
  λ m, Some (tt, Build_machine (f (que m)) (env m) (trace m)).

Definition emit (e : event) : M unit :=
  λ m, Some (tt, Build_machine (que m) (env m) (trace m ++ [e])).

(** [::new (&p_buffer[i]) T(v)] *)
Definition placement_new (i : Z) (v : T) : M unit :=
  s ← gets (λ q, slot q i);
  match s with
  | Some _ =>
      modify (λ q, set_p_buffer (<[Z.to_nat i := Some v]> (p_buffer q)) q);;
      emit (EvConstruct i v)
  | None => undefined
  end.

(** The rvalue [p_buffer[i]] *)
Definition load (i : Z) : M T :=
  s ← gets (λ q, slot q i);
  match s with
  | Some (Some v) => mret v
  | _ => undefined
  end.

(** [p_buffer[i].~T()] *)
Definition destroy (i : Z) : M unit :=
  s ← gets (λ q, slot q i);
  match s with
  | Some (Some v) =>
      modify (λ q, set_p_buffer (<[Z.to_nat i := None]> (p_buffer q)) q);;
      emit (EvDestruct i v)
  | _ => undefined
  end.

(** ** Class iqueue_spsc_locked_base: member functions *)

(** Calculate the next index. *)
Definition get_next_index (index maximum : Z) : Z :=
  let index := to_size_type (index + 1) in
  if index =? maximum then 0 else index.

(** Constructor. *)
Definition iqueue_spsc_locked_base_ctor (p_buffer_ : list (option T)) (max_size_ : Z)
  : iqueue_spsc_locked_base :=
  Build_base p_buffer_ 0 0 0 max_size_.

(** Push a value to the queue.  The [const_reference] and
    [rvalue_reference] overloads have the same body up to [etl::move]. *)
Definition push_implementation (value : T) : M bool :=
  n ← gets current_size;
  maximum ← gets MAX_SIZE;
  if negb (n =? maximum) then
    w ← gets write_index;
    placement_new w value;;
    modify (λ q, set_write_index (get_next_index (write_index q) (MAX_SIZE q)) q);;
    modify (λ q, set_current_size (to_size_type (current_size q + 1)) q);;
    mret true
  else
    (* Queue is full. *)
    mret false.

(** Constructs a value in the queue 'in place'. *)
Definition emplace_implementation (args : Args) : M bool :=
  n ← gets current_size;
  maximum ← gets MAX_SIZE;
  if negb (n =? maximum) then
    w ← gets write_index;
    placement_new w (construct args);;
    modify (λ q, set_write_index (get_next_index (write_index q) (MAX_SIZE q)) q);;
    modify (λ q, set_current_size (to_size_type (current_size q + 1)) q);;
    mret true
  else
    (* Queue is full. *)
    mret false.

(** Pop a value from the queue.  [value] is the content of the caller's
    object on entry; the second component of the result is its content on
    return.  The [reference] and [rvalue_reference] overloads have the same
    body up to [etl::move]. *)
Definition pop_implementation (value : T) : M (bool * T) :=
  n ← gets current_size;
  if n =? 0 then
    (* Queue is empty *)
    mret (false, value)
  else
    r ← gets read_index;
    value ← load r;
    destroy r;;
    modify (λ q, set_read_index (get_next_index (read_index q) (MAX_SIZE q)) q);;
    modify (λ q, set_current_size (to_size_type (current_size q - 1)) q);;
    mret (true, value).

(** Pop a value from the queue and discard. *)
Definition pop_implementation_discard : M bool :=
  n ← gets current_size;
  if n =? 0 then
    (* Queue is empty *)
    mret false
  else
    r ← gets read_index;
    destroy r;;
    modify (λ q, set_read_index (get_next_index (read_index q) (MAX_SIZE q)) q);;
    modify (λ q, set_current_size (to_size_type (current_size q - 1)) q);;
    mret true.

Definition push_from_unlocked (value : T) : M bool := push_implementation value.
Definition emplace_from_unlocked (args : Args) : M bool := emplace_implementation args.
Definition pop_from_unlocked (value : T) : M (bool * T) := pop_implementation value.
Definition pop_from_unlocked_discard : M bool := pop_implementation_discard.

(** How much free space available in the queue. *)
Definition available_from_unlocked : M Z :=
  maximum ← gets MAX_SIZE;
  n ← gets current_size;
  mret (to_size_type (maximum - n)).

Definition empty_from_unlocked : M bool :=
  n ← gets current_size; mret (n =? 0).

Definition full_from_unlocked : M bool :=
  n ← gets current_size; maximum ← gets MAX_SIZE; mret (n =? maximum).

Definition size_from_unlocked : M Z := gets current_size.

Definition capacity : M Z := gets MAX_SIZE.
Definition max_size : M Z := gets MAX_SIZE.

(** The loop [while (pop_implementation()) { }] shared by both [clear]
    members.  An iteration that returns [true] has decremented a non-zero
    [current_size]; the count therefore bounds the iterations still to come.
    (A count that is no [size_type] value is one after the first decrement,
    hence the second branch of the measure.)  The recursion is well founded
    on that measure, so the loop is a total function of the machine. *)
Definition iterations_left (m : machine) : nat :=
  let n := current_size (que m) in
  Z.to_nat (if decide (0 ≤ n < size_type_modulus) then n else size_type_modulus).

Equations? while_pop_implementation (m : machine) : option (unit * machine)
  by wf (iterations_left m) lt :=
  while_pop_implementation m with Equations.Prop.Logic.inspect (pop_implementation_discard m) := {
    | exist _ (Some (true, m')) _ => while_pop_implementation m';
    | exist _ (Some (false, m')) _ => Some (tt, m');
    | exist _ None _ => None }.
Proof.
  clear while_pop_implementation.
  assert (0 < size_type_modulus) by (apply Z.pow_pos_nonneg; lia).
  unfold pop_implementation_discard, destroy, gets, modify, emit,
    mbind, M_bind, mret, M_ret, undefined in e.
  cbn in e.
  destruct (Z.eqb_spec (current_size (que m)) 0) as [|Hnz]; [discriminate|].
  destruct (slot (que m) (read_index (que m))) as [[v|]|]; [|discriminate..].
  injection e as <-.
  unfold iterations_left, to_size_type. cbn.
  pose proof (Z.mod_pos_bound (current_size (que m) - 1) size_type_modulus).
  repeat case_decide; try lia.
  rewrite Z.mod_small by lia. lia.
Qed.

(** Clear the queue from the ISR. *)
Definition clear_from_unlocked : M unit := while_pop_implementation.

(** ** Class iqueue_spsc_locked *)

(** [etl::ifunction<void>]: a callable without arguments or result.  The
    queue never looks inside it; its effect is on the state of the
    application that supplied it. *)
Definition ifunction : Type := Env → Env.

(** The callback that locks interrupts / that unlocks interrupts. *)
Variables lock unlock : ifunction.

Definition invoke (f : ifunction) (e : event) : M unit :=
  λ m, Some (tt, Build_machine (que m) (f (env m)) (trace m ++ [e])).

(** Push a value to the queue. *)
Definition push (value : T) : M bool :=
  invoke lock EvLock;;
  result ← push_implementation value;
  invoke unlock EvUnlock;;
  mret result.

(** Constructs a value in the queue 'in place'. *)
Definition emplace (args : Args) : M bool :=
  invoke lock EvLock;;
  result ← emplace_implementation args;
  invoke unlock EvUnlock;;
  mret result.

(** Pop a value from the queue. *)
Definition pop (value : T) : M (bool * T) :=
  invoke lock EvLock;;
  result ← pop_implementation value;
  invoke unlock EvUnlock;;
  mret result.

(** Pop a value from the queue and discard. *)
Definition pop_discard : M bool :=
  invoke lock EvLock;;
  result ← pop_implementation_discard;
  invoke unlock EvUnlock;;
  mret result.

(** Clear the queue. *)
Definition clear : M unit :=
  invoke lock EvLock;;
  while_pop_implementation;;
  invoke unlock EvUnlock.

(** Is the queue empty?  The source stores the comparison in a
    [size_type] local and converts it back to [bool] on return. *)
Definition empty : M bool :=
  invoke lock EvLock;;
  n ← gets current_size;
  let result := to_size_type (Z.b2z (n =? 0)) in
  invoke unlock EvUnlock;;
  mret (negb (result =? 0)).

(** Is the queue full? *)
Definition full : M bool :=
  invoke lock EvLock;;
  n ← gets current_size;
  maximum ← gets MAX_SIZE;
  let result := to_size_type (Z.b2z (n =? maximum)) in
  invoke unlock EvUnlock;;
  mret (negb (result =? 0)).

(** How many items in the queue? *)
Definition size : M Z :=
  invoke lock EvLock;;
  result ← gets current_size;
  invoke unlock EvUnlock;;
  mret result.

(** How much free space available in the queue. *)
Definition available : M Z :=
  invoke lock EvLock;;
  maximum ← gets MAX_SIZE;
  n ← gets current_size;
  let result := to_size_type (maximum - n) in
  invoke unlock EvUnlock;;
  mret result.

(** ** Class queue_spsc_locked *)

(** Constructor: [MAX_SIZE = size_type(SIZE)], an uninitialised
    [buffer[MAX_SIZE]], and the base constructed over it.  [e] is the state
    of the application at that moment. *)
Definition queue_spsc_locked (SIZE : Z) (e : Env) : machine :=
  let MAX_SIZE := to_size_type SIZE in
  Build_machine
    (iqueue_spsc_locked_base_ctor (replicate (Z.to_nat MAX_SIZE) None) MAX_SIZE)
    e [].

(** [ETL_STATIC_ASSERT(SIZE <= integral_limits<size_type>::max)], and the
    array bound [buffer[MAX_SIZE]], which C++ requires to be positive. *)
Definition valid_SIZE (SIZE : Z) : Prop := 0 < SIZE ≤ integral_limits_max.

(** Destructor. *)
Definition queue_spsc_locked_dtor : M unit := clear.

(** ** Call sequences *)

Inductive call : Type :=
| Push (value : T) | PushFromUnlocked (value : T)
| Emplace (args : Args) | EmplaceFromUnlocked (args : Args)
| Pop (value : T) | PopFromUnlocked (value : T)
| PopDiscard | PopDiscardFromUnlocked
| Clear | ClearFromUnlocked
| Empty | EmptyFromUnlocked
| Full | FullFromUnlocked
| Size | SizeFromUnlocked
| Available | AvailableFromUnlocked
| Capacity | MaxSize.

Inductive reply : Type :=
| RBool (b : bool)
| RPop (b : bool) (value : T)
| RSize (n : Z)
| RVoid.

Definition exec (c : call) : M reply :=
  match c with
  | Push v => RBool <$> push v
  | PushFromUnlocked v => RBool <$> push_from_unlocked v
  | Emplace a => RBool <$> emplace a
  | EmplaceFromUnlocked a => RBool <$> emplace_from_unlocked a
  | Pop v => (λ r, RPop r.1 r.2) <$> pop v
  | PopFromUnlocked v => (λ r, RPop r.1 r.2) <$> pop_from_unlocked v
  | PopDiscard => RBool <$> pop_discard
  | PopDiscardFromUnlocked => RBool <$> pop_from_unlocked_discard
  | Clear => (λ _, RVoid) <$> clear
  | ClearFromUnlocked => (λ _, RVoid) <$> clear_from_unlocked
  | Empty => RBool <$> empty
  | EmptyFromUnlocked => RBool <$> empty_from_unlocked
  | Full => RBool <$> full
  | FullFromUnlocked => RBool <$> full_from_unlocked
  | Size => RSize <$> size
  | SizeFromUnlocked => RSize <$> size_from_unlocked
  | Available => RSize <$> available
  | AvailableFromUnlocked => RSize <$> available_from_unlocked
  | Capacity => RSize <$> capacity
  | MaxSize => RSize <$> max_size
  end.

Fixpoint run (cs : list call) : M (list reply) :=
  match cs with
  | [] => mret []
  | c :: cs => r ← exec c; rs ← run cs; mret (r :: rs)
  end.

(** States a queue can be in: freshly constructed, or obtained from such a
    state by a completed member call. *)
Inductive reachable : machine → Prop :=
| reachable_ctor SIZE e :
    valid_SIZE SIZE → reachable (queue_spsc_locked SIZE e)
| reachable_exec m c r m' :
    reachable m → exec c m = Some (r, m') → reachable m'.

(** ** The data model of the specification *)

(** Ranges of the members: a positive capacity that [size_type] can hold,
    a buffer of exactly that many slots, both indices inside the buffer
    and a count between zero and the capacity. *)
Record queue_ok (q : iqueue_spsc_locked_base) : Prop := {
  ok_capacity : 0 < MAX_SIZE q ≤ integral_limits_max;
  ok_buffer : Z.of_nat (length (p_buffer q)) = MAX_SIZE q;
  ok_write : 0 ≤ write_index q < MAX_SIZE q;
  ok_read : 0 ≤ read_index q < MAX_SIZE q;
  ok_size : 0 ≤ current_size q ≤ MAX_SIZE q
}.

(** The write index is the read index advanced by the count. *)
Definition ring_equation (q : iqueue_spsc_locked_base) : Prop :=
  write_index q = (read_index q + current_size q) mod MAX_SIZE q.

(** The slot [j] places after the read index. *)
Definition ring_slot (q : iqueue_spsc_locked_base) (j : Z) : option (option T) :=
  slot q ((read_index q + j) mod MAX_SIZE q).

(** [xs] lists the live elements, oldest first: exactly the
    [current_size] slots starting at [read_index] (wrapping) hold an
    element, the [j]-th of them the [j]-th element of [xs], and every other
    slot holds none. *)
Definition represents (q : iqueue_spsc_locked_base) (xs : list T) : Prop :=
  Z.of_nat (length xs) = current_size q ∧
  ∀ j, 0 ≤ j < MAX_SIZE q → ring_slot q j = Some (xs !! Z.to_nat j).

(** The elements read off the buffer, oldest first. *)
Definition contents (q : iqueue_spsc_locked_base) : list T :=
  omap (λ j, mjoin (ring_slot q j)) (seqZ 0 (current_size q)).

(** Indices of the slots that hold them. *)
Definition live_slots (q : iqueue_spsc_locked_base) : list Z :=
  (λ j, (read_index q + j) mod MAX_SIZE q) <$> seqZ 0 (current_size q).

Record queue_inv (q : iqueue_spsc_locked_base) : Prop := {
  inv_ok : queue_ok q;
  inv_ring : ring_equation q;
  inv_live : represents q (contents q)
}.

(** The state a successful push / pop leads to, in the words of the
    specification. *)
Definition spec_push (v : T) (q : iqueue_spsc_locked_base) : iqueue_spsc_locked_base :=
  Build_base (<[Z.to_nat (write_index q) := Some v]> (p_buffer q))
    ((write_index q + 1) mod MAX_SIZE q) (read_index q)
    (current_size q + 1) (MAX_SIZE q).

Definition spec_pop (q : iqueue_spsc_locked_base) : iqueue_spsc_locked_base :=
  Build_base (<[Z.to_nat (read_index q) := None]> (p_buffer q))
    (write_index q) ((read_index q + 1) mod MAX_SIZE q)
    (current_size q - 1) (MAX_SIZE q).

(** The machine right after [lock()] and right after [unlock()]. *)
Definition after_lock (m : machine) : machine :=
  Build_machine (que m) (lock (env m)) (trace m ++ [EvLock]).

Definition after_unlock (m : machine) : machine :=
  Build_machine (que m) (unlock (env m)) (trace m ++ [EvUnlock]).

(** The core operations as the specification words them.

    push: if count = capacity, fail (no state change); otherwise construct
    the value into storage[write_index], advance the write index by one
    modulo the capacity, increment count, succeed. *)
Definition core_push (v : T) (m : machine) : bool * machine :=
  if decide (current_size (que m) = MAX_SIZE (que m)) then (false, m)
  else (true, Build_machine (spec_push v (que m)) (env m)
                (trace m ++ [EvConstruct (write_index (que m)) v])).

(** The element in slot [i], if the slot holds one. *)
Definition element_at (q : iqueue_spsc_locked_base) (i : Z) : option T :=
  mjoin (slot q i).

(** pop(out): if count = 0, fail with out unmodified; otherwise move the
    element at storage[read_index] into out, destruct that slot, advance
    the read index by one modulo the capacity, decrement count, succeed. *)
Definition core_pop (out : T) (m : machine) : (bool * T) * machine :=
  if decide (current_size (que m) = 0) then ((false, out), m)
  else
    let x := default out (element_at (que m) (read_index (que m))) in
    ((true, x), Build_machine (spec_pop (que m)) (env m)
                  (trace m ++ [EvDestruct (read_index (que m)) x])).

(** A locked operation: lock(); the core operation; unlock(); return the
    core's result. *)
Definition guarded {A} (core : machine → A * machine) (m : machine) : A * machine :=
  let '(r, m') := core (after_lock m) in (r, after_unlock m').

(** A push and an extracting pop, through the locked or the
    already-exclusive entry point. *)
Definition push_call (locked : bool) (v : T) : call :=
  if locked then Push v else PushFromUnlocked v.

Definition pop_call (locked : bool) (out : T) : call :=
  if locked then Pop out else PopFromUnlocked out.

(** The destructor calls a drain makes: one per live slot, oldest first. *)
Definition drain_events (q : iqueue_spsc_locked_base) : list event :=
  zip_with EvDestruct (live_slots q) (contents q).

(** The slots whose element a sequence of calls destructs, one entry per
    destructor call. *)
Definition destructed_slots (evs : list event) : list Z :=
  omap (λ e, match e with EvDestruct i _ => Some i | _ => None end) evs.

(** The state a drain leaves: no element in any slot, both indices where
    the write index was, count zero. *)
Definition spec_clear (q : iqueue_spsc_locked_base) : iqueue_spsc_locked_base :=
  Build_base (replicate (length (p_buffer q)) None)
    (write_index q) (write_index q) 0 (MAX_SIZE q).

(** Calls to the constructors and the destructor of [T], as opposed to
    calls to the two callables. *)
Definition data_event (e : event) : Prop :=
  match e with
  | EvLock | EvUnlock => False
  | EvConstruct _ _ | EvDestruct _ _ => True
  end.

(** A computation that touches nothing but the queue: started from the
    same queue under another application state and another history, it
    gives the same result, the same queue and the same new calls, none of
    them to a callable. *)
Definition queue_only {A} (c : M A) : Prop :=
  ∀ m e t,
    match c m with
    | Some (r, m') =>
        ∃ evs, env m' = env m ∧ trace m' = trace m ++ evs ∧
               Forall data_event evs ∧
               c (Build_machine (que m) e t) =
                 Some (r, Build_machine (que m') e (t ++ evs))
    | None => c (Build_machine (que m) e t) = None
    end.

(** [op] is [core] between one [lock()] and one [unlock()]. *)
Definition bracketed {A} (op core : M A) : Prop :=
  ∀ m,
    match core m with
    | Some (r, m') =>
        ∃ evs, trace m' = trace m ++ evs ∧ Forall data_event evs ∧
               op m = Some (r, Build_machine (que m') (unlock (lock (env m)))
                                 (trace m ++ [EvLock] ++ evs ++ [EvUnlock]))
    | None => op m = None
    end.

(** Classification of calls and replies. *)
Definition is_push (c : call) : bool :=
  match c with
  | Push _ | PushFromUnlocked _ | Emplace _ | EmplaceFromUnlocked _ => true
  | _ => false
  end.

Definition is_pop (c : call) : bool :=
  match c with
  | Pop _ | PopFromUnlocked _ | PopDiscard | PopDiscardFromUnlocked => true
  | _ => false
  end.

Definition is_locked (c : call) : bool :=
  match c with
  | Push _ | Emplace _ | Pop _ | PopDiscard | Clear
  | Empty | Full | Size | Available => true
  | _ => false
  end.

Definition succeeded (r : reply) : bool :=
  match r with
  | RBool b | RPop b _ => b
  | RSize _ | RVoid => false
  end.

(** The already-exclusive counterpart of a call. *)
Definition from_unlocked (c : call) : call :=
  match c with
  | Push v => PushFromUnlocked v
  | Emplace a => EmplaceFromUnlocked a
  | Pop v => PopFromUnlocked v
  | PopDiscard => PopDiscardFromUnlocked
  | Clear => ClearFromUnlocked
  | Empty => EmptyFromUnlocked
  | Full => FullFromUnlocked
  | Size => SizeFromUnlocked
  | Available => AvailableFromUnlocked
  | c => c
  end.

#[local] Instance data_event_dec e : Decision (data_event e).
Proof. destruct e; cbn; apply _. Defined.

(** What a single-threaded test can observe of a machine: the queue, the
    application state, and the constructor and destructor calls made. *)
Definition same_observation (m1 m2 : machine) : Prop :=
  que m1 = que m2 ∧ env m1 = env m2 ∧
  filter data_event (trace m1) = filter data_event (trace m2).

Definition same_outcome {A} (o1 o2 : option (A * machine)) : Prop :=
  match o1, o2 with
  | Some (r1, m1), Some (r2, m2) => r1 = r2 ∧ same_observation m1 m2
  | None, None => True
  | _, _ => False
  end.

(** [c] returns from every state of the data model, in such a state. *)
Definition preserves {A} (c : M A) : Prop :=
  ∀ m, queue_inv (que m) →
    ∃ r m', c m = Some (r, m') ∧ queue_inv (que m').

(** ** Arithmetic of [size_type] and of ring positions *)

Lemma size_type_modulus_ge_2 : 2 ≤ size_type_modulus.
Proof.
  unfold size_type_modulus.
  change 2 with (2 ^ 1) at 1. apply Z.pow_le_mono_r; lia.
Qed.

Lemma to_size_type_small z :
  0 ≤ z ≤ integral_limits_max → to_size_type z = z.
Proof.
  unfold to_size_type, integral_limits_max. intros. apply Z.mod_small. lia.
Qed.

Lemma get_next_index_mod i N :
  0 ≤ i < N → N ≤ integral_limits_max → get_next_index i N = (i + 1) mod N.
Proof.
  intros Hi HN. unfold get_next_index.
  rewrite to_size_type_small by lia.
  destruct (Z.eqb_spec (i + 1) N) as [->|].
  - now rewrite Z_mod_same_full.
  - rewrite Z.mod_small; lia.
Qed.

(** [(r + j) mod N] for a position and an offset below [N]. *)
Lemma ring_mod r j N :
  0 ≤ r < N → 0 ≤ j ≤ N →
  (r + j) mod N = if decide (r + j < N) then r + j else r + j - N.
Proof.
  intros. case_decide.
  - apply Z.mod_small. lia.
  - symmetry. apply (Z.mod_unique_pos _ _ 1). lia. lia.
Qed.

Ltac ring_mod_all :=
  repeat match goal with
  | |- context [(?r + ?j) mod ?N] => rewrite (ring_mod r j N) by lia
  | H : context [(?r + ?j) mod ?N] |- _ => rewrite (ring_mod r j N) in H by lia
  end;
  repeat case_decide; try lia.

Lemma ring_mod_0 r N : 0 ≤ r < N → (r + 0) mod N = r.
Proof. intros. rewrite Z.add_0_r. apply Z.mod_small. lia. Qed.

(** Every position is some offset past [r]. *)
Lemma ring_offset r i N :
  0 ≤ r < N → 0 ≤ i < N → ∃ j, 0 ≤ j < N ∧ (r + j) mod N = i.
Proof.
  intros. exists (if decide (r ≤ i) then i - r else i - r + N).
  case_decide; (split; [lia|]); rewrite ring_mod by lia; case_decide; lia.
Qed.

Lemma ring_inj r j k N :
  0 ≤ r < N → 0 ≤ j < N → 0 ≤ k < N →
  (r + j) mod N = (r + k) mod N → j = k.
Proof. intros ? ? ?. rewrite !ring_mod by lia. repeat case_decide; lia. Qed.

Lemma slot_inside q i :
  queue_ok q → 0 ≤ i < MAX_SIZE q → ∃ s, slot q i = Some s.
Proof.
  intros [] Hi. unfold slot. rewrite decide_True by lia.
  apply lookup_lt_is_Some. lia.
Qed.

Lemma omap_seqZ_lookup (f : Z → option T) (xs : list T) :
  (∀ j, 0 ≤ j < Z.of_nat (length xs) → f j = xs !! Z.to_nat j) →
  omap f (seqZ 0 (Z.of_nat (length xs))) = xs.
Proof.
  induction xs as [|x xs IH] using rev_ind; intros Hf; [done|].
  rewrite length_app in *. cbn [length] in *.
  replace (length xs + 1)%nat with (S (length xs)) in * by lia.
  rewrite seqZ_S, omap_app. cbn.
  rewrite IH.
  - rewrite Hf by lia. rewrite Z.add_0_l, Nat2Z.id.
    rewrite lookup_app_r, Nat.sub_diag by lia. done.
  - intros j Hj. rewrite Hf by lia.
    apply lookup_app_l. lia.
Qed.

Lemma represents_contents q xs :
  queue_ok q → represents q xs → contents q = xs.
Proof.
  intros [] [Hlen Hsl]. unfold contents. rewrite <- Hlen.
  apply omap_seqZ_lookup. intros j Hj. rewrite Hsl by lia. done.
Qed.

Lemma queue_inv_intro q xs :
  queue_ok q → ring_equation q → represents q xs → queue_inv q.
Proof.
  intros Hok Hring Hrep. split; [done..|].
  by rewrite (represents_contents q xs).
Qed.

Lemma represents_front q x xs :
  queue_ok q → represents q (x :: xs) →
  slot q (read_index q) = Some (Some x).
Proof.
  intros [] [Hlen Hsl]. cbn [length] in Hlen.
  specialize (Hsl 0 ltac:(lia)). unfold ring_slot in Hsl.
  by rewrite ring_mod_0 in Hsl by lia.
Qed.

Lemma represents_push q xs v :
  queue_ok q → ring_equation q → represents q xs →
  current_size q ≠ MAX_SIZE q →
  represents (spec_push v q) (xs ++ [v]).
Proof.
  intros [] Hring [Hlen Hsl] Hn. split.
  { rewrite length_app. cbn. lia. }
  cbn [MAX_SIZE spec_push]. intros j Hj.
  specialize (Hsl j Hj). revert Hsl.
  unfold ring_slot, slot. cbn [p_buffer read_index MAX_SIZE spec_push].
  rewrite Hring.
  pose proof (Z.mod_pos_bound (read_index q + j) (MAX_SIZE q) ltac:(lia)).
  rewrite !decide_True by lia.
  destruct (decide (j = current_size q)) as [->|Hne].
  - intros _. rewrite list_lookup_insert_eq by lia.
    rewrite lookup_app_r by lia.
    replace (Z.to_nat (current_size q) - length xs)%nat with 0%nat by lia.
    done.
  - rewrite list_lookup_insert_ne by (ring_mod_all).
    intros ->. f_equal.
    destruct (decide (j < current_size q)).
    + rewrite lookup_app_l by lia. done.
    + rewrite !lookup_ge_None_2; [done|..]; rewrite ?length_app; cbn; lia.
Qed.

Lemma represents_pop q x xs :
  queue_ok q → represents q (x :: xs) → represents (spec_pop q) xs.
Proof.
  intros [] [Hlen Hsl]. cbn [length] in Hlen. split.
  { cbn. lia. }
  cbn [MAX_SIZE spec_pop]. intros j Hj.
  unfold ring_slot, slot. cbn [p_buffer read_index MAX_SIZE spec_pop].
  rewrite Zplus_mod_idemp_l.
  pose proof (Z.mod_pos_bound (read_index q + 1 + j) (MAX_SIZE q) ltac:(lia)).
  rewrite decide_True by lia.
  destruct (decide (j + 1 = MAX_SIZE q)) as [Hlast|Hne].
  - replace (read_index q + 1 + j) with (read_index q + MAX_SIZE q) by lia.
    rewrite ring_mod by lia. rewrite decide_False by lia.
    replace (read_index q + MAX_SIZE q - MAX_SIZE q) with (read_index q) by lia.
    rewrite list_lookup_insert_eq by lia.
    rewrite lookup_ge_None_2 by lia. done.
  - specialize (Hsl (j + 1) ltac:(lia)). revert Hsl.
    unfold ring_slot, slot.
    replace (read_index q + 1 + j) with (read_index q + (j + 1)) in * by lia.
    rewrite decide_True by lia.
    rewrite list_lookup_insert_ne by (ring_mod_all).
    intros ->. f_equal.
    replace (Z.to_nat (j + 1)) with (S (Z.to_nat j)) by lia. done.
Qed.

Lemma queue_ok_push q v :
  queue_ok q → current_size q ≠ MAX_SIZE q → queue_ok (spec_push v q).
Proof.
  intros [] Hn.
  pose proof (Z.mod_pos_bound (write_index q + 1) (MAX_SIZE q) ltac:(lia)).
  split; cbn; rewrite ?length_insert; lia.
Qed.

Lemma queue_ok_pop q :
  queue_ok q → current_size q ≠ 0 → queue_ok (spec_pop q).
Proof.
  intros [] Hn.
  pose proof (Z.mod_pos_bound (read_index q + 1) (MAX_SIZE q) ltac:(lia)).
  split; cbn; rewrite ?length_insert; lia.
Qed.

Lemma ring_equation_push q v :
  ring_equation q → ring_equation (spec_push v q).
Proof.
  unfold ring_equation. cbn. intros ->.
  rewrite Zplus_mod_idemp_l. f_equal. lia.
Qed.

Lemma ring_equation_pop q : ring_equation q → ring_equation (spec_pop q).
Proof.
  unfold ring_equation. cbn. intros ->.
  rewrite Zplus_mod_idemp_l. f_equal. lia.
Qed.

Lemma queue_inv_push q v :
  queue_inv q → current_size q ≠ MAX_SIZE q →
  queue_inv (spec_push v q) ∧ contents (spec_push v q) = contents q ++ [v].
Proof.
  intros [Hok Hring Hrep] Hn.
  pose proof (represents_push q _ v Hok Hring Hrep Hn) as Hrep'.
  pose proof (queue_ok_push q v Hok Hn) as Hok'.
  split; [|by apply represents_contents].
  eapply queue_inv_intro; eauto using ring_equation_push.
Qed.

Lemma queue_inv_front q :
  queue_inv q → current_size q ≠ 0 →
  ∃ x xs, contents q = x :: xs ∧ slot q (read_index q) = Some (Some x).
Proof.
  intros [Hok Hring Hrep] Hn.
  destruct (contents q) as [|x xs] eqn:Hc.
  - destruct Hrep as [Hlen _]. cbn in Hlen. lia.
  - exists x, xs. split; [done|]. by eapply represents_front.
Qed.

Lemma queue_inv_pop q x xs :
  queue_inv q → contents q = x :: xs →
  queue_inv (spec_pop q) ∧ contents (spec_pop q) = xs.
Proof.
  intros [Hok Hring Hrep] Hc. rewrite Hc in Hrep.
  assert (current_size q ≠ 0) as Hn.
  { destruct Hrep as [Hlen _]. cbn in Hlen. lia. }
  pose proof (represents_pop q x xs Hok Hrep) as Hrep'.
  pose proof (queue_ok_pop q Hok Hn) as Hok'.
  split; [|by apply represents_contents].
  eapply queue_inv_intro; eauto using ring_equation_pop.
Qed.

(** ** The unsynchronised members, step by step *)

Ltac run_M :=
  unfold push_from_unlocked, emplace_from_unlocked, pop_from_unlocked,
    pop_from_unlocked_discard, push_implementation, emplace_implementation,
    pop_implementation, pop_implementation_discard, placement_new, load,
    destroy, available_from_unlocked, empty_from_unlocked,
    full_from_unlocked, size_from_unlocked, capacity, max_size,
    invoke, gets, modify, emit, undefined,
    fmap, M_fmap, mbind, M_bind, mret, M_ret;
  cbn.

Lemma push_implementation_full v m :
  current_size (que m) = MAX_SIZE (que m) →
  push_implementation v m = Some (false, m).
Proof. intros H. run_M. rewrite H, Z.eqb_refl. reflexivity. Qed.

Lemma push_implementation_spec v m :
  queue_ok (que m) → current_size (que m) ≠ MAX_SIZE (que m) →
  push_implementation v m =
    Some (true, Build_machine (spec_push v (que m)) (env m)
                  (trace m ++ [EvConstruct (write_index (que m)) v])).
Proof.
  intros Hok Hn. pose proof Hok as [].
  run_M. rewrite (proj2 (Z.eqb_neq _ _) Hn). cbn.
  destruct (slot_inside (que m) (write_index (que m))) as [s ->]; [done..|].
  cbn. rewrite get_next_index_mod, to_size_type_small by lia.
  reflexivity.
Qed.

Lemma emplace_implementation_push args :
  emplace_implementation args = push_implementation (construct args).
Proof. reflexivity. Qed.

Lemma pop_implementation_empty value m :
  current_size (que m) = 0 →
  pop_implementation value m = Some ((false, value), m).
Proof. intros H. run_M. rewrite H. reflexivity. Qed.

Lemma pop_implementation_spec value m x :
  queue_ok (que m) → current_size (que m) ≠ 0 →
  slot (que m) (read_index (que m)) = Some (Some x) →
  pop_implementation value m =
    Some ((true, x), Build_machine (spec_pop (que m)) (env m)
                       (trace m ++ [EvDestruct (read_index (que m)) x])).
Proof.
  intros [] Hn Hx. run_M. rewrite (proj2 (Z.eqb_neq _ _) Hn). cbn.
  rewrite !Hx. cbn.
  rewrite get_next_index_mod, to_size_type_small by lia.
  reflexivity.
Qed.

Lemma pop_implementation_discard_empty m :
  current_size (que m) = 0 →
  pop_implementation_discard m = Some (false, m).
Proof. intros H. run_M. rewrite H. reflexivity. Qed.

Lemma pop_implementation_discard_spec m x :
  queue_ok (que m) → current_size (que m) ≠ 0 →
  slot (que m) (read_index (que m)) = Some (Some x) →
  pop_implementation_discard m =
    Some (true, Build_machine (spec_pop (que m)) (env m)
                  (trace m ++ [EvDestruct (read_index (que m)) x])).
Proof.
  intros [] Hn Hx. run_M. rewrite (proj2 (Z.eqb_neq _ _) Hn). cbn.
  rewrite !Hx. cbn.
  rewrite get_next_index_mod, to_size_type_small by lia.
  reflexivity.
Qed.

(** ** The drain loop *)

Lemma while_pop_implementation_step m :
  while_pop_implementation m =
    match pop_implementation_discard m with
    | Some (true, m') => while_pop_implementation m'
    | Some (false, m') => Some (tt, m')
    | None => None
    end.
Proof.
  funelim (while_pop_implementation m);
    match goal with e : pop_implementation_discard _ = _ |- _ => rewrite e end;
    reflexivity.
Qed.

Lemma live_slots_pop q :
  queue_ok q → current_size q ≠ 0 →
  live_slots q = read_index q :: live_slots (spec_pop q).
Proof.
  intros [] Hn. unfold live_slots. cbn.
  rewrite seqZ_cons by lia. cbn. rewrite ring_mod_0 by lia. f_equal.
  replace (Z.succ 0) with (1 + 0) by lia. rewrite <- fmap_add_seqZ.
  rewrite <- list_fmap_compose.
  replace (Z.pred (current_size q)) with (current_size q - 1) by lia.
  apply list_fmap_ext. intros _ j _. cbn.
  rewrite Zplus_mod_idemp_l. f_equal. lia.
Qed.

Lemma live_slots_empty q : current_size q = 0 → live_slots q = [].
Proof. intros H. unfold live_slots. rewrite H. reflexivity. Qed.

Lemma spec_clear_empty q :
  queue_inv q → current_size q = 0 → spec_clear q = q.
Proof.
  intros [[] Hring [Hlen Hsl]] Hn. unfold ring_equation in Hring.
  rewrite Hn, ring_mod_0 in Hring by lia.
  destruct q as [buf w r n N]. cbn in *. subst. unfold spec_clear. cbn.
  f_equal. symmetry. apply list_eq. intros i.
  destruct (decide (i < length buf)%nat) as [Hi|Hi].
  - rewrite lookup_replicate_2 by done.
    destruct (ring_offset r (Z.of_nat i) (Z.of_nat (length buf)))
      as (j & Hj & Hij); [lia..|].
    specialize (Hsl j Hj).
    unfold ring_slot, slot in Hsl. cbn in Hsl.
    rewrite Hij, decide_True, Nat2Z.id in Hsl by lia. rewrite Hsl.
    assert (length (contents (Build_base buf r r 0 (Z.of_nat (length buf)))) = 0%nat)
      as Hnil by lia.
    apply nil_length_inv in Hnil. rewrite Hnil. done.
  - rewrite !lookup_ge_None_2; [done|..]; rewrite ?length_replicate; lia.
Qed.

Lemma drain_events_pop q x xs :
  queue_inv q → contents q = x :: xs →
  drain_events q = EvDestruct (read_index q) x :: drain_events (spec_pop q).
Proof.
  intros Hinv Hc. destruct (queue_inv_pop q x xs Hinv Hc) as [_ Hc'].
  unfold drain_events. rewrite Hc, Hc'.
  rewrite live_slots_pop; [done|by destruct Hinv|].
  destruct Hinv as [_ _ [Hlen _]]. rewrite Hc in Hlen. cbn in Hlen. lia.
Qed.

Lemma while_pop_implementation_spec m :
  queue_inv (que m) →
  while_pop_implementation m =
    Some (tt, Build_machine (spec_clear (que m)) (env m)
                (trace m ++ drain_events (que m))).
Proof.
  remember (contents (que m)) as xs eqn:Hxs. symmetry in Hxs.
  revert m Hxs. induction xs as [|x xs IH]; intros m Hxs Hinv.
  - assert (current_size (que m) = 0) as Hn.
    { destruct Hinv as [_ _ [Hlen _]]. rewrite Hxs in Hlen. cbn in Hlen. lia. }
    rewrite while_pop_implementation_step, pop_implementation_discard_empty by done.
    unfold drain_events. rewrite spec_clear_empty, live_slots_empty by done.
    cbn. rewrite app_nil_r. by destruct m.
  - pose proof Hinv as [Hok _ Hrep]. rewrite Hxs in Hrep.
    pose proof (represents_front _ _ _ Hok Hrep) as Hx.
    assert (current_size (que m) ≠ 0) as Hn.
    { destruct Hrep as [Hlen _]. cbn in Hlen. lia. }
    destruct (queue_inv_pop _ _ _ Hinv Hxs) as [Hinv' Hxs'].
    rewrite while_pop_implementation_step.
    rewrite (pop_implementation_discard_spec m x) by done.
    rewrite IH by done. cbn.
    rewrite (drain_events_pop (que m) x xs) by done.
    rewrite <- app_assoc. cbn. do 3 f_equal.
    unfold spec_clear. cbn. by rewrite length_insert.
Qed.

Lemma queue_inv_clear q : queue_inv q → queue_inv (spec_clear q).
Proof.
  intros [[] _ _]. apply (queue_inv_intro _ []).
  - split; cbn; rewrite ?length_replicate; lia.
  - unfold ring_equation. cbn. by rewrite ring_mod_0.
  - split; [done|]. cbn. intros j Hj.
    unfold ring_slot, slot. cbn.
    pose proof (Z.mod_pos_bound (write_index q + j) (MAX_SIZE q) ltac:(lia)).
    rewrite decide_True by lia. rewrite lookup_replicate_2 by lia. done.
Qed.

(** ** The freshly constructed queue *)

Lemma queue_inv_ctor SIZE e :
  valid_SIZE SIZE → queue_inv (que (queue_spsc_locked SIZE e)).
Proof.
  intros HS. unfold valid_SIZE in HS. apply (queue_inv_intro _ []).
  - split; cbn; rewrite ?length_replicate, to_size_type_small; lia.
  - unfold ring_equation. cbn. by rewrite Zmod_0_l.
  - split; [done|]. cbn. rewrite to_size_type_small by lia. intros j Hj.
    unfold ring_slot, slot. cbn. rewrite (Z.mod_small j) by lia.
    rewrite decide_True by lia. rewrite lookup_replicate_2 by lia. done.
Qed.

(** ** The unsynchronised members touch nothing but the queue *)

Lemma queue_only_ret {A} (a : A) : queue_only (mret a).
Proof.
  intros m e t. cbn. exists []. rewrite !app_nil_r. by repeat split.
Qed.

Lemma queue_only_bind {A B} (c : M A) (k : A → M B) :
  queue_only c → (∀ a, queue_only (k a)) → queue_only (c ≫= k).
Proof.
  intros Hc Hk m e t. unfold mbind, M_bind.
  specialize (Hc m e t). destruct (c m) as [[a m1]|]; [|by rewrite Hc].
  destruct Hc as (evs1 & He1 & Ht1 & Hd1 & ->).
  specialize (Hk a m1 e (t ++ evs1)).
  destruct (k a m1) as [[b m2]|]; [|done].
  destruct Hk as (evs2 & He2 & Ht2 & Hd2 & Hk).
  exists (evs1 ++ evs2). rewrite Hk, He2, Ht2, Ht1, He1, !app_assoc.
  repeat split. by apply Forall_app.
Qed.

Lemma queue_only_fmap {A B} (f : A → B) (c : M A) :
  queue_only c → queue_only (f <$> c).
Proof.
  intros Hc m e t. unfold fmap, M_fmap.
  specialize (Hc m e t). destruct (c m) as [[a m1]|]; [|by rewrite Hc].
  destruct Hc as (evs & He & Ht & Hd & ->). by exists evs.
Qed.

Lemma queue_only_gets {A} (f : iqueue_spsc_locked_base → A) :
  queue_only (gets f).
Proof.
  intros m e t. cbn. exists []. rewrite !app_nil_r. by repeat split.
Qed.

Lemma queue_only_modify f : queue_only (modify f).
Proof.
  intros m e t. cbn. exists []. rewrite !app_nil_r. by repeat split.
Qed.

Lemma queue_only_emit ev : data_event ev → queue_only (emit ev).
Proof.
  intros Hev m e t. cbn. exists [ev]. repeat split. by apply Forall_singleton.
Qed.

Lemma queue_only_undefined {A} : queue_only (@undefined A).
Proof. by intros m e t. Qed.

Create HintDb queue_only.
Local Hint Resolve queue_only_ret queue_only_gets queue_only_modify
  queue_only_emit queue_only_undefined queue_only_fmap : queue_only.

Ltac queue_only_steps :=
  repeat first
    [ apply queue_only_bind; [|intros ?]
    | apply queue_only_emit; exact I
    | progress eauto with queue_only
    | match goal with
      | |- queue_only (match ?x with _ => _ end) => destruct x
      | |- queue_only (if ?b then _ else _) => destruct b
      | |- data_event _ => exact I
      end ].

Lemma queue_only_push_implementation v : queue_only (push_implementation v).
Proof. unfold push_implementation, placement_new. queue_only_steps. Qed.

Lemma queue_only_pop_implementation value :
  queue_only (pop_implementation value).
Proof. unfold pop_implementation, load, destroy. queue_only_steps. Qed.

Lemma queue_only_pop_implementation_discard :
  queue_only pop_implementation_discard.
Proof. unfold pop_implementation_discard, destroy. queue_only_steps. Qed.

Lemma queue_only_while_pop_implementation :
  queue_only while_pop_implementation.
Proof.
  intros m. funelim (while_pop_implementation m); intros e' t';
    match goal with e : pop_implementation_discard _ = _ |- _ =>
      pose proof (queue_only_pop_implementation_discard m e' t') as Hpop;
      rewrite e in Hpop
    end;
    rewrite (while_pop_implementation_step (Build_machine _ _ _)).
  - destruct Hpop as (evs1 & He1 & Ht1 & Hd1 & ->).
    match goal with IH : ∀ e t, match _ with _ => _ end |- _ =>
      specialize (IH e' (t' ++ evs1)) end.
    destruct (while_pop_implementation m') as [[[] m2]|]; [|done].
    destruct H as (evs2 & He2 & Ht2 & Hd2 & ->).
    exists (evs1 ++ evs2). rewrite He2, Ht2, Ht1, He1, !app_assoc.
    repeat split. by apply Forall_app.
  - destruct Hpop as (evs1 & He1 & Ht1 & Hd1 & ->). by exists evs1.
  - by rewrite Hpop.
Qed.

(** ** The locked members are the unsynchronised ones in a bracket *)

Lemma bool_of_size_type (b : bool) :
  negb (to_size_type (Z.b2z b) =? 0) = b.
Proof.
  pose proof size_type_modulus_ge_2.
  destruct b; cbn; unfold to_size_type.
  - rewrite Z.mod_small by lia. done.
  - rewrite Zmod_0_l. done.
Qed.

Lemma bracketed_intro {A} (op core : M A) :
  queue_only core →
  (∀ m, op m = match core (after_lock m) with
               | Some (r, m1) => Some (r, after_unlock m1)
               | None => None
               end) →
  bracketed op core.
Proof.
  intros Hq Hop m. rewrite Hop.
  specialize (Hq m (lock (env m)) (trace m ++ [EvLock])).
  destruct (core m) as [[r m1]|].
  - destruct Hq as (evs & He & Ht & Hd & Hc).
    exists evs. do 2 (split; [done|]).
    unfold after_lock. rewrite Hc. unfold after_unlock. cbn.
    by rewrite <- !app_assoc.
  - unfold after_lock. by rewrite Hq.
Qed.

Lemma bracketed_push v : bracketed (push v) (push_from_unlocked v).
Proof.
  apply bracketed_intro; [apply queue_only_push_implementation|].
  intros m. unfold push, push_from_unlocked, mbind, M_bind. cbn.
  by destruct (push_implementation _ _) as [[]|].
Qed.

Lemma bracketed_emplace a : bracketed (emplace a) (emplace_from_unlocked a).
Proof.
  apply bracketed_intro; [apply queue_only_push_implementation|].
  intros m. unfold emplace, emplace_from_unlocked, mbind, M_bind. cbn.
  by destruct (emplace_implementation _ _) as [[]|].
Qed.

Lemma bracketed_pop value : bracketed (pop value) (pop_from_unlocked value).
Proof.
  apply bracketed_intro; [apply queue_only_pop_implementation|].
  intros m. unfold pop, pop_from_unlocked, mbind, M_bind. cbn.
  by destruct (pop_implementation _ _) as [[]|].
Qed.

Lemma bracketed_pop_discard : bracketed pop_discard pop_from_unlocked_discard.
Proof.
  apply bracketed_intro; [apply queue_only_pop_implementation_discard|].
  intros m. unfold pop_discard, pop_from_unlocked_discard, mbind, M_bind. cbn.
  by destruct (pop_implementation_discard _) as [[]|].
Qed.

Lemma bracketed_clear : bracketed clear clear_from_unlocked.
Proof.
  apply bracketed_intro; [apply queue_only_while_pop_implementation|].
  intros m. unfold clear, clear_from_unlocked, mbind, M_bind. cbn.
  by destruct (while_pop_implementation _) as [[[]]|].
Qed.

Lemma bracketed_empty : bracketed empty empty_from_unlocked.
Proof.
  apply bracketed_intro.
  { unfold empty_from_unlocked. queue_only_steps. }
  intros m. unfold empty, empty_from_unlocked, invoke, gets, mbind, M_bind,
    mret, M_ret. cbn -[to_size_type Z.b2z].
  by rewrite bool_of_size_type.
Qed.

Lemma bracketed_full : bracketed full full_from_unlocked.
Proof.
  apply bracketed_intro.
  { unfold full_from_unlocked. queue_only_steps. }
  intros m. unfold full, full_from_unlocked, invoke, gets, mbind, M_bind,
    mret, M_ret. cbn -[to_size_type Z.b2z].
  by rewrite bool_of_size_type.
Qed.

Lemma bracketed_size : bracketed size size_from_unlocked.
Proof.
  apply bracketed_intro.
  { unfold size_from_unlocked. queue_only_steps. }
  intros m. reflexivity.
Qed.

Lemma bracketed_available : bracketed available available_from_unlocked.
Proof.
  apply bracketed_intro.
  { unfold available_from_unlocked. queue_only_steps. }
  intros m. reflexivity.
Qed.

(** ** Every member keeps the data model *)

Lemma preserves_bracketed {A} (op core : M A) :
  bracketed op core → preserves core → preserves op.
Proof.
  intros Hb Hc m Hinv. destruct (Hc m Hinv) as (r & m1 & Hcore & Hinv1).
  specialize (Hb m). rewrite Hcore in Hb.
  destruct Hb as (evs & _ & _ & ->). eauto.
Qed.

Lemma preserves_fmap {A B} (f : A → B) (c : M A) :
  preserves c → preserves (f <$> c).
Proof.
  intros Hc m Hinv. destruct (Hc m Hinv) as (r & m1 & Hcore & Hinv1).
  unfold fmap, M_fmap. rewrite Hcore. eauto.
Qed.

Lemma preserves_gets {A} (f : iqueue_spsc_locked_base → A) :
  preserves (gets f).
Proof. intros m Hinv. by exists (f (que m)), m. Qed.

Lemma preserves_push_implementation v : preserves (push_implementation v).
Proof.
  intros m Hinv.
  destruct (decide (current_size (que m) = MAX_SIZE (que m))) as [Hn|Hn].
  - rewrite push_implementation_full by done. eauto.
  - rewrite push_implementation_spec by (done || apply Hinv).
    do 2 eexists. split; [done|]. cbn. by apply queue_inv_push.
Qed.

Lemma preserves_pop_implementation value :
  preserves (pop_implementation value).
Proof.
  intros m Hinv.
  destruct (decide (current_size (que m) = 0)) as [Hn|Hn].
  - rewrite pop_implementation_empty by done. eauto.
  - destruct (queue_inv_front _ Hinv Hn) as (x & xs & Hc & Hx).
    rewrite (pop_implementation_spec _ _ x) by (done || apply Hinv).
    do 2 eexists. split; [done|]. cbn. by eapply queue_inv_pop.
Qed.

Lemma preserves_pop_implementation_discard :
  preserves pop_implementation_discard.
Proof.
  intros m Hinv.
  destruct (decide (current_size (que m) = 0)) as [Hn|Hn].
  - rewrite pop_implementation_discard_empty by done. eauto.
  - destruct (queue_inv_front _ Hinv Hn) as (x & xs & Hc & Hx).
    rewrite (pop_implementation_discard_spec _ x) by (done || apply Hinv).
    do 2 eexists. split; [done|]. cbn. by eapply queue_inv_pop.
Qed.

Lemma preserves_while_pop_implementation : preserves while_pop_implementation.
Proof.
  intros m Hinv. rewrite while_pop_implementation_spec by done.
  do 2 eexists. split; [done|]. cbn. by apply queue_inv_clear.
Qed.

Lemma preserves_exec c : preserves (exec c).
Proof.
  destruct c; cbn [exec]; apply preserves_fmap;
    first
      [ eapply preserves_bracketed;
        [ first [ apply bracketed_push | apply bracketed_emplace
                | apply bracketed_pop | apply bracketed_pop_discard
                | apply bracketed_clear | apply bracketed_empty
                | apply bracketed_full | apply bracketed_size
                | apply bracketed_available ] | ]
      | idtac ];
    first
      [ apply preserves_push_implementation
      | apply preserves_pop_implementation
      | apply preserves_pop_implementation_discard
      | apply preserves_while_pop_implementation
      | apply preserves_gets
      | intros m Hinv; eexists _, m; split; [reflexivity|done] ].
Qed.

Lemma reachable_inv m : reachable m → queue_inv (que m).
Proof.
  induction 1 as [SIZE e HS|m c r m' _ IH Hexec].
  - by apply queue_inv_ctor.
  - destruct (preserves_exec c m IH) as (r0 & m0 & Hexec0 & Hinv).
    congruence.
Qed.

Lemma bracketed_result {A} (op core : M A) m r q' evs :
  bracketed op core →
  core m = Some (r, Build_machine q' (env m) (trace m ++ evs)) →
  op m = Some (r, Build_machine q' (unlock (lock (env m)))
                    (trace m ++ [EvLock] ++ evs ++ [EvUnlock])).
Proof.
  intros Hb Hc. specialize (Hb m). rewrite Hc in Hb.
  destruct Hb as (evs' & Ht & _ & ->). cbn in Ht.
  by apply app_inv_head in Ht as <-.
Qed.

Lemma push_from_unlocked_core v m :
  queue_ok (que m) → push_from_unlocked v m = Some (core_push v m).
Proof.
  intros Hok. unfold core_push, push_from_unlocked. case_decide.
  - by apply push_implementation_full.
  - by apply push_implementation_spec.
Qed.

Lemma push_core v m :
  queue_ok (que m) → push v m = Some (guarded (core_push v) m).
Proof.
  intros Hok. pose proof (push_from_unlocked_core v m Hok) as Hc.
  unfold guarded, core_push in *. cbn. case_decide.
  - rewrite (bracketed_result _ _ m false (que m) [] (bracketed_push v)).
    + unfold after_unlock, after_lock. cbn. by rewrite <- app_assoc.
    + rewrite Hc, app_nil_r. by destruct m.
  - rewrite (bracketed_result _ _ m _ _ _ (bracketed_push v) Hc).
    unfold after_unlock. cbn. by rewrite <- !app_assoc.
Qed.

Lemma element_at_front q :
  queue_inv q →
  element_at q (read_index q) = head (contents q) ∧
  (current_size q = 0 ↔ element_at q (read_index q) = None).
Proof.
  intros Hinv. pose proof Hinv as [Hok _ [Hlen Hsl]].
  destruct (decide (current_size q = 0)) as [Hn|Hn].
  - pose proof Hok as []. specialize (Hsl 0 ltac:(lia)).
    unfold ring_slot in Hsl. rewrite ring_mod_0 in Hsl by lia.
    destruct (contents q); [|cbn in Hlen; lia].
    unfold element_at. rewrite Hsl. done.
  - destruct (queue_inv_front q Hinv Hn) as (x & xs & -> & Hx).
    unfold element_at. rewrite Hx. cbn. split; [done|]. split; [lia|done].
Qed.

Lemma pop_from_unlocked_core value m :
  queue_inv (que m) → pop_from_unlocked value m = Some (core_pop value m).
Proof.
  intros Hinv. unfold core_pop, pop_from_unlocked. case_decide as Hn.
  - by apply pop_implementation_empty.
  - destruct (queue_inv_front _ Hinv Hn) as (x & xs & _ & Hx).
    unfold element_at. rewrite Hx. cbn.
    apply pop_implementation_spec; [apply Hinv|done..].
Qed.

Lemma pop_core value m :
  queue_inv (que m) → pop value m = Some (guarded (core_pop value) m).
Proof.
  intros Hinv. pose proof (pop_from_unlocked_core value m Hinv) as Hc.
  unfold guarded, core_pop in *. cbn. case_decide.
  - rewrite (bracketed_result _ _ m (false, value) (que m) []
               (bracketed_pop value)).
    + unfold after_unlock, after_lock. cbn. by rewrite <- app_assoc.
    + rewrite Hc, app_nil_r. by destruct m.
  - rewrite (bracketed_result _ _ m _ _ _ (bracketed_pop value) Hc).
    unfold after_unlock. cbn. by rewrite <- !app_assoc.
Qed.

Lemma pop_from_unlocked_discard_core value m :
  queue_inv (que m) →
  pop_from_unlocked_discard m =
    Some ((core_pop value m).1.1, (core_pop value m).2).
Proof.
  intros Hinv. unfold core_pop, pop_from_unlocked_discard. case_decide as Hn.
  - by apply pop_implementation_discard_empty.
  - destruct (queue_inv_front _ Hinv Hn) as (x & xs & _ & Hx).
    unfold element_at. rewrite Hx. cbn.
    apply pop_implementation_discard_spec; [apply Hinv|done..].
Qed.

Lemma pop_discard_core value m :
  queue_inv (que m) →
  pop_discard m =
    Some ((guarded (core_pop value) m).1.1, (guarded (core_pop value) m).2).
Proof.
  intros Hinv. pose proof (pop_from_unlocked_discard_core value m Hinv) as Hc.
  unfold guarded, core_pop in *. cbn in *. case_decide.
  - rewrite (bracketed_result _ _ m false (que m) [] bracketed_pop_discard).
    + unfold after_unlock, after_lock. cbn. by rewrite <- app_assoc.
    + rewrite Hc, app_nil_r. by destruct m.
  - rewrite (bracketed_result _ _ m _ _ _ bracketed_pop_discard Hc).
    unfold after_unlock. cbn. by rewrite <- !app_assoc.
Qed.

(** ** Sequences of pushes and of pops *)

Lemma run_cons c cs m r m1 rs m2 :
  exec c m = Some (r, m1) → run cs m1 = Some (rs, m2) →
  run (c :: cs) m = Some (r :: rs, m2).
Proof.
  intros Hc Hcs. cbn [run]. unfold mbind, M_bind. by rewrite Hc, Hcs.
Qed.

Lemma exec_push_call l v m :
  queue_inv (que m) → current_size (que m) ≠ MAX_SIZE (que m) →
  ∃ m', exec (push_call l v) m = Some (RBool true, m') ∧
        que m' = spec_push v (que m).
Proof.
  intros [Hok _ _] Hn. destruct l; cbn [exec push_call]; unfold fmap, M_fmap.
  - rewrite push_core by done. unfold guarded, core_push. cbn.
    rewrite decide_False by done. eauto.
  - rewrite push_from_unlocked_core by done. unfold core_push.
    rewrite decide_False by done. eauto.
Qed.

Lemma exec_pop_call l out m x xs :
  queue_inv (que m) → contents (que m) = x :: xs →
  ∃ m', exec (pop_call l out) m = Some (RPop true x, m') ∧
        que m' = spec_pop (que m).
Proof.
  intros Hinv Hc.
  assert (current_size (que m) ≠ 0) as Hn.
  { destruct Hinv as [_ _ [Hlen _]]. rewrite Hc in Hlen. cbn in Hlen. lia. }
  destruct (element_at_front _ Hinv) as [Hx _]. rewrite Hc in Hx. cbn in Hx.
  destruct l; cbn [exec pop_call]; unfold fmap, M_fmap.
  - rewrite pop_core by done. unfold guarded, core_pop. cbn.
    rewrite decide_False by done. cbn. rewrite Hx. eauto.
  - rewrite pop_from_unlocked_core by done. unfold core_pop.
    rewrite decide_False by done. cbn. rewrite Hx. eauto.
Qed.

Lemma run_push_calls l vs m :
  queue_inv (que m) →
  Z.of_nat (length vs) ≤ MAX_SIZE (que m) - current_size (que m) →
  ∃ m1, run (push_call l <$> vs) m = Some (replicate (length vs) (RBool true), m1) ∧
        queue_inv (que m1) ∧ contents (que m1) = contents (que m) ++ vs.
Proof.
  revert m. induction vs as [|v vs IH]; intros m Hinv Hfree.
  - exists m. by rewrite app_nil_r.
  - cbn [length] in Hfree.
    destruct (exec_push_call l v m Hinv ltac:(lia)) as (m' & Hexec & Hq).
    destruct (queue_inv_push _ v Hinv ltac:(lia)) as [Hinv' Hc'].
    rewrite <- Hq in Hinv', Hc'.
    destruct (IH m' Hinv') as (m1 & Hrun & Hinv1 & Hc1).
    { rewrite Hq. cbn. lia. }
    exists m1. split; [by eapply run_cons|]. split; [done|].
    by rewrite Hc1, Hc', <- app_assoc.
Qed.

Lemma run_pop_calls l xs outs m rest :
  queue_inv (que m) → contents (que m) = xs ++ rest →
  length outs = length xs →
  ∃ m2, run (pop_call l <$> outs) m = Some (RPop true <$> xs, m2) ∧
        queue_inv (que m2) ∧ contents (que m2) = rest.
Proof.
  revert outs m. induction xs as [|x xs IH]; intros outs m Hinv Hc Hlen.
  - destruct outs; [|done]. by exists m.
  - destruct outs as [|out outs]; [done|]. cbn in Hc, Hlen.
    destruct (exec_pop_call l out m x _ Hinv Hc) as (m' & Hexec & Hq).
    destruct (queue_inv_pop _ _ _ Hinv Hc) as [Hinv' Hc'].
    rewrite <- Hq in Hinv', Hc'.
    destruct (IH outs m' Hinv' Hc' ltac:(lia)) as (m2 & Hrun & Hinv2 & Hc2).
    exists m2. split; [by eapply run_cons|done].
Qed.

Lemma run_replicate_fixed c r k m :
  exec c m = Some (r, m) →
  run (replicate k c) m = Some (replicate k r, m).
Proof.
  intros Hc. induction k as [|k IH]; [done|]. by eapply run_cons.
Qed.

Lemma run_replicate_quiet c r q :
  (∀ m, que m = q → ∃ m', exec c m = Some (r, m') ∧ que m' = q) →
  ∀ k m, que m = q →
    ∃ m', run (replicate k c) m = Some (replicate k r, m') ∧ que m' = q.
Proof.
  intros Hc. induction k as [|k IH]; intros m Hq; [by exists m|].
  destruct (Hc m Hq) as (m1 & Hexec & Hq1).
  destruct (IH m1 Hq1) as (m2 & Hrun & Hq2).
  exists m2. split; [by eapply run_cons|done].
Qed.

Lemma push_full v m :
  current_size (que m) = MAX_SIZE (que m) →
  push v m = Some (false, after_unlock (after_lock m)).
Proof.
  intros Hn.
  rewrite (bracketed_result _ _ m false (que m) [] (bracketed_push v)).
  - unfold after_unlock, after_lock. cbn. by rewrite <- app_assoc.
  - unfold push_from_unlocked. rewrite push_implementation_full by done.
    rewrite app_nil_r. by destruct m.
Qed.

Lemma pop_empty out m :
  current_size (que m) = 0 →
  pop out m = Some ((false, out), after_unlock (after_lock m)).
Proof.
  intros Hn.
  rewrite (bracketed_result _ _ m (false, out) (que m) [] (bracketed_pop out)).
  - unfold after_unlock, after_lock. cbn. by rewrite <- app_assoc.
  - unfold pop_from_unlocked. rewrite pop_implementation_empty by done.
    rewrite app_nil_r. by destruct m.
Qed.

Lemma pop_discard_empty m :
  current_size (que m) = 0 →
  pop_discard m = Some (false, after_unlock (after_lock m)).
Proof.
  intros Hn.
  rewrite (bracketed_result _ _ m false (que m) [] bracketed_pop_discard).
  - unfold after_unlock, after_lock. cbn. by rewrite <- app_assoc.
  - unfold pop_from_unlocked_discard.
    rewrite pop_implementation_discard_empty by done.
    rewrite app_nil_r. by destruct m.
Qed.

(** ** What a drain destructs *)

Lemma length_live_slots q : length (live_slots q) = Z.to_nat (current_size q).
Proof. unfold live_slots. by rewrite length_fmap, length_seqZ. Qed.

Lemma lookup_live_slots q k i :
  live_slots q !! k = Some i ↔
  i = (read_index q + Z.of_nat k) mod MAX_SIZE q ∧ Z.of_nat k < current_size q.
Proof.
  unfold live_slots. rewrite list_lookup_fmap.
  destruct (decide (Z.of_nat k < current_size q)) as [Hk|Hk].
  - rewrite lookup_seqZ_lt by done. cbn. split.
    + by intros [= <-].
    + by intros [-> _].
  - rewrite lookup_seqZ_ge by lia. cbn. split; [done|]. by intros [_ ?].
Qed.

Lemma NoDup_live_slots q : queue_ok q → NoDup (live_slots q).
Proof.
  intros []. unfold live_slots.
  apply NoDup_fmap_2_strong; [|apply NoDup_seqZ].
  intros j k Hj%elem_of_seqZ Hk%elem_of_seqZ Heq.
  eapply ring_inj; [| | |exact Heq]; lia.
Qed.

Lemma destructed_slots_zip (ls : list Z) (xs : list T) :
  length ls = length xs →
  destructed_slots (zip_with EvDestruct ls xs) = ls.
Proof.
  revert xs. induction ls as [|i ls IH]; intros [|x xs] Hlen; try done.
  cbn. f_equal. apply IH. by injection Hlen.
Qed.

Lemma destructed_slots_drain q :
  queue_inv q → destructed_slots (drain_events q) = live_slots q.
Proof.
  intros [_ _ [Hlen _]]. apply destructed_slots_zip.
  rewrite length_live_slots. lia.
Qed.

Lemma elem_of_drain_events q i x :
  queue_inv q →
  EvDestruct i x ∈ drain_events q ↔ slot q i = Some (Some x).
Proof.
  intros [Hok _ [Hlen Hsl]]. pose proof Hok as [].
  unfold drain_events. rewrite list_elem_of_lookup.
  setoid_rewrite lookup_zip_with_Some. split.
  - intros (k & i' & x' & [= <- <-] & [-> Hk]%lookup_live_slots & Hx).
    specialize (Hsl (Z.of_nat k) ltac:(lia)). unfold ring_slot in Hsl.
    by rewrite Hsl, Nat2Z.id, Hx.
  - intros Hix.
    assert (0 ≤ i < MAX_SIZE q) as Hi.
    { unfold slot in Hix. case_decide; [|done].
      apply lookup_lt_Some in Hix. lia. }
    destruct (ring_offset (read_index q) i (MAX_SIZE q)) as (j & Hj & Hij);
      [done..|].
    specialize (Hsl j Hj). unfold ring_slot in Hsl.
    rewrite Hij, Hix in Hsl. injection Hsl as Hx. symmetry in Hx.
    pose proof (lookup_lt_Some _ _ _ Hx).
    exists (Z.to_nat j), i, x. split; [done|]. split; [|done].
    apply lookup_live_slots. rewrite Z2Nat.id by lia. split; [done|lia].
Qed.

Lemma element_at_spec_clear q i : element_at (spec_clear q) i = None.
Proof.
  unfold element_at, slot. cbn. case_decide; [|done].
  destruct (decide (Z.to_nat i < length (p_buffer q))%nat).
  - by rewrite lookup_replicate_2.
  - rewrite lookup_ge_None_2; [done|]. rewrite length_replicate. lia.
Qed.

Lemma clear_spec m :
  queue_inv (que m) →
  clear m =
    Some (tt, Build_machine (spec_clear (que m)) (unlock (lock (env m)))
                (trace m ++ [EvLock] ++ drain_events (que m) ++ [EvUnlock])).
Proof.
  intros Hinv. apply (bracketed_result _ _ _ _ _ _ bracketed_clear).
  by apply while_pop_implementation_spec.
Qed.

(** ** Locked calls against their already-exclusive counterparts *)

Lemma bracketed_fmap {A B} (f : A → B) (op core : M A) :
  bracketed op core → bracketed (f <$> op) (f <$> core).
Proof.
  intros Hb m. specialize (Hb m). unfold fmap, M_fmap.
  destruct (core m) as [[r m1]|]; [|by rewrite Hb].
  destruct Hb as (evs & Ht & Hd & ->). by exists evs.
Qed.

Lemma bracketed_exec c :
  is_locked c = true → bracketed (exec c) (exec (from_unlocked c)).
Proof.
  destruct c; intros [=]; cbn [exec from_unlocked]; apply bracketed_fmap;
    auto using bracketed_push, bracketed_emplace, bracketed_pop,
      bracketed_pop_discard, bracketed_clear, bracketed_empty, bracketed_full,
      bracketed_size, bracketed_available.
Qed.

Lemma from_unlocked_id c : is_locked c = false → from_unlocked c = c.
Proof. by destruct c. Qed.

Lemma queue_only_exec c : queue_only (exec (from_unlocked c)).
Proof.
  destruct c; cbn [exec from_unlocked]; apply queue_only_fmap;
    first
      [ apply queue_only_push_implementation
      | apply queue_only_pop_implementation
      | apply queue_only_pop_implementation_discard
      | apply queue_only_while_pop_implementation
      | unfold empty_from_unlocked, full_from_unlocked, size_from_unlocked,
          available_from_unlocked, capacity, max_size; queue_only_steps ].
Qed.

Lemma filter_data_bracket t evs :
  filter data_event (t ++ [EvLock] ++ evs ++ [EvUnlock]) =
  filter data_event (t ++ evs).
Proof.
  rewrite !filter_app. f_equal. cbn. by rewrite app_nil_r.
Qed.

Lemma exec_same_outcome c m1 m2 :
  (∀ e, lock e = e) → (∀ e, unlock e = e) →
  same_observation m1 m2 →
  same_outcome (exec c m1) (exec (from_unlocked c) m2).
Proof.
  intros Hlock Hunlock (Hq & He & Ht).
  pose proof (queue_only_exec c m1 (env m2) (trace m2)) as Hcore.
  rewrite Hq in Hcore. replace (Build_machine _ _ _) with m2 in Hcore
    by (by destruct m2).
  destruct (is_locked c) eqn:Hc.
  - pose proof (bracketed_exec c Hc m1) as Hb.
    destruct (exec (from_unlocked c) m1) as [[r m1']|].
    + destruct Hcore as (evs & He1 & Ht1 & _ & ->).
      destruct Hb as (evs' & Ht1' & _ & ->).
      rewrite Ht1 in Ht1'. apply app_inv_head in Ht1' as <-.
      split; [done|]. split; [done|]. cbn [que env trace]. split.
      * by rewrite Hunlock, Hlock.
      * rewrite filter_data_bracket, !filter_app. by rewrite Ht.
    + by rewrite Hb, Hcore.
  - rewrite (from_unlocked_id c Hc) in *.
    destruct (exec c m1) as [[r m1']|]; [|by rewrite Hcore].
    destruct Hcore as (evs & He1 & Ht1 & _ & ->).
    split; [done|]. split; [done|]. cbn [que env trace]. split; [congruence|].
    rewrite Ht1, !filter_app. by rewrite Ht.
Qed.

Lemma run_same_outcome cs m1 m2 :
  (∀ e, lock e = e) → (∀ e, unlock e = e) →
  same_observation m1 m2 →
  same_outcome (run cs m1) (run (from_unlocked <$> cs) m2).
Proof.
  intros Hlock Hunlock. revert m1 m2.
  induction cs as [|c cs IH]; intros m1 m2 Hsim; [done|].
  cbn [run fmap list_fmap]. unfold mbind, M_bind.
  pose proof (exec_same_outcome c m1 m2 Hlock Hunlock Hsim) as Hc.
  destruct (exec c m1) as [[r1 m1']|], (exec (from_unlocked c) m2)
    as [[r2 m2']|]; try done.
  destruct Hc as [-> Hsim'].
  specialize (IH m1' m2' Hsim').
  destruct (run cs m1') as [[rs1 m1'']|], (run (from_unlocked <$> cs) m2')
    as [[rs2 m2'']|]; try done.
  destruct IH as [-> ?]. done.
Qed.

(** ** What one call does to the indices *)

Lemma push_outcome v m :
  queue_ok (que m) →
  let ok := negb (current_size (que m) =? MAX_SIZE (que m)) in
  let q' := if ok then spec_push v (que m) else que m in
  ∃ m1 m2, push_from_unlocked v m = Some (ok, m1) ∧ que m1 = q' ∧
           push v m = Some (ok, m2) ∧ que m2 = q'.
Proof.
  intros Hok. cbn zeta.
  rewrite push_core, push_from_unlocked_core by done.
  unfold guarded, core_push. cbn.
  destruct (Z.eqb_spec (current_size (que m)) (MAX_SIZE (que m))).
  - rewrite !decide_True by done. cbn. by eexists _, _.
  - rewrite !decide_False by done. cbn. by eexists _, _.
Qed.

Lemma pop_outcome out m :
  queue_inv (que m) →
  let ok := negb (current_size (que m) =? 0) in
  let q' := if ok then spec_pop (que m) else que m in
  ∃ x m1 m2, pop_from_unlocked out m = Some ((ok, x), m1) ∧ que m1 = q' ∧
             pop out m = Some ((ok, x), m2) ∧ que m2 = q'.
Proof.
  intros Hinv. cbn zeta.
  rewrite pop_core, pop_from_unlocked_core by done.
  unfold guarded, core_pop. cbn.
  destruct (Z.eqb_spec (current_size (que m)) 0).
  - rewrite !decide_True by done. cbn. by eexists _, _, _.
  - rewrite !decide_False by done. cbn. by eexists _, _, _.
Qed.

Lemma pop_discard_outcome m :
  queue_inv (que m) →
  let ok := negb (current_size (que m) =? 0) in
  let q' := if ok then spec_pop (que m) else que m in
  ∃ m1 m2, pop_from_unlocked_discard m = Some (ok, m1) ∧ que m1 = q' ∧
           pop_discard m = Some (ok, m2) ∧ que m2 = q'.
Proof.
  intros Hinv. cbn zeta.
  destruct (Z.eqb_spec (current_size (que m)) 0) as [Hn|Hn]; cbn.
  - rewrite pop_discard_empty by done. unfold pop_from_unlocked_discard.
    rewrite pop_implementation_discard_empty by done. by eexists _, _.
  - destruct (queue_inv_front _ Hinv Hn) as (x & _ & _ & _).
    rewrite (pop_discard_core x), (pop_from_unlocked_discard_core x) by done.
    unfold guarded, core_pop. cbn.
    rewrite !decide_False by done. cbn. by eexists _, _.
Qed.

Lemma exec_indices c m :
  queue_inv (que m) →
  ∃ r m', exec c m = Some (r, m') ∧
    (is_push c = true →
       succeeded r = negb (current_size (que m) =? MAX_SIZE (que m)) ∧
       read_index (que m') = read_index (que m) ∧
       write_index (que m') =
         if succeeded r
         then (write_index (que m) + 1) mod MAX_SIZE (que m)
         else write_index (que m)) ∧
    (is_pop c = true →
       succeeded r = negb (current_size (que m) =? 0) ∧
       write_index (que m') = write_index (que m) ∧
       read_index (que m') =
         if succeeded r
         then (read_index (que m) + 1) mod MAX_SIZE (que m)
         else read_index (que m)).
Proof.
  intros Hinv. pose proof Hinv as [Hok _ _].
  destruct (preserves_exec c m Hinv) as (r0 & m0 & Hexec0 & _).
  destruct c; cbn [is_push is_pop];
    try (exists r0, m0; split; [done|]; split; solve [intros [=]]);
    clear r0 m0 Hexec0; cbn [exec]; unfold fmap, M_fmap.
  - destruct (push_outcome value m Hok) as (m1 & m2 & _ & _ & -> & Hq).
    eexists _, _. split; [done|]. split; [intros _|intros [=]].
    cbn [succeeded]. rewrite Hq. by destruct (negb _).
  - destruct (push_outcome value m Hok) as (m1 & m2 & -> & Hq & _ & _).
    eexists _, _. split; [done|]. split; [intros _|intros [=]].
    cbn [succeeded]. rewrite Hq. by destruct (negb _).
  - destruct (push_outcome (construct args) m Hok)
      as (m1 & m2 & _ & _ & He & Hq).
    change (emplace args m) with (push (construct args) m). rewrite He.
    eexists _, _. split; [done|]. split; [intros _|intros [=]].
    cbn [succeeded]. rewrite Hq. by destruct (negb _).
  - destruct (push_outcome (construct args) m Hok)
      as (m1 & m2 & He & Hq & _ & _).
    change (emplace_from_unlocked args m)
      with (push_from_unlocked (construct args) m). rewrite He.
    eexists _, _. split; [done|]. split; [intros _|intros [=]].
    cbn [succeeded]. rewrite Hq. by destruct (negb _).
  - destruct (pop_outcome value m Hinv) as (x & m1 & m2 & _ & _ & -> & Hq).
    eexists _, _. split; [done|]. split; [intros [=]|intros _].
    cbn [succeeded fst snd]. rewrite Hq. by destruct (negb _).
  - destruct (pop_outcome value m Hinv) as (x & m1 & m2 & -> & Hq & _ & _).
    eexists _, _. split; [done|]. split; [intros [=]|intros _].
    cbn [succeeded fst snd]. rewrite Hq. by destruct (negb _).
  - destruct (pop_discard_outcome m Hinv) as (m1 & m2 & _ & _ & -> & Hq).
    eexists _, _. split; [done|]. split; [intros [=]|intros _].
    cbn [succeeded]. rewrite Hq. by destruct (negb _).
  - destruct (pop_discard_outcome m Hinv) as (m1 & m2 & -> & Hq & _ & _).
    eexists _, _. split; [done|]. split; [intros [=]|intros _].
    cbn [succeeded]. rewrite Hq. by destruct (negb _).
Qed.

Lemma run_total cs m : queue_inv (que m) → is_Some (run cs m).
Proof.
  revert m. induction cs as [|c cs IH]; intros m Hinv; [by eexists|].
  destruct (preserves_exec c m Hinv) as (r & m1 & Hexec & Hinv1).
  destruct (IH m1 Hinv1) as [[rs m2] Hrun].
  eexists. by eapply run_cons.
Qed.

(** * The claims *)

(** C1.  In every state of the data model, [push_from_unlocked value]
    returns [false] and changes nothing when the count equals the
    capacity; otherwise it constructs [value] into the slot at the write
    index, advances the write index to [(write_index + 1) mod capacity],
    increments the count and returns [true] ([core_push]).  [push] does the
    same between [lock()] and [unlock()].  [emplace_from_unlocked] and
    [emplace] do the same with the element constructed from the arguments,
    under the same full-queue rule. *)
Theorem push_emplace_spec (m : machine) (value : T) (args : Args) :
  queue_ok (que m) →
  push_from_unlocked value m = Some (core_push value m) ∧
  push value m = Some (guarded (core_push value) m) ∧
  emplace_from_unlocked args m = Some (core_push (construct args) m) ∧
  emplace args m = Some (guarded (core_push (construct args)) m).
Proof.
  intros Hok. repeat split.
  - by apply push_from_unlocked_core.
  - by apply push_core.
  - by apply (push_from_unlocked_core (construct args)).
  - by apply (push_core (construct args)).
Qed.

(** C2.  In every state of the data model, [pop_from_unlocked out] returns
    [false] and leaves [out] and the state alone when the count is zero;
    otherwise the slot at the read index holds an element, which is moved
    into [out]; the slot is destructed, the read index advances to
    [(read_index + 1) mod capacity], the count decreases by one and the
    result is [true] ([core_pop]).  [pop] does the same between [lock()]
    and [unlock()].  The discarding forms return the same flag and reach
    the same state, without the element. *)
Theorem pop_spec (m : machine) (out : T) :
  queue_inv (que m) →
  (current_size (que m) = 0 ↔
     element_at (que m) (read_index (que m)) = None) ∧
  pop_from_unlocked out m = Some (core_pop out m) ∧
  pop out m = Some (guarded (core_pop out) m) ∧
  pop_from_unlocked_discard m =
    Some ((core_pop out m).1.1, (core_pop out m).2) ∧
  pop_discard m =
    Some ((guarded (core_pop out) m).1.1, (guarded (core_pop out) m).2).
Proof.
  intros Hinv. repeat split.
  - by apply element_at_front.
  - by apply element_at_front.
  - by apply pop_from_unlocked_core.
  - by apply pop_core.
  - by apply pop_from_unlocked_discard_core.
  - by apply pop_discard_core.
Qed.

(** C3.  FIFO round trip.  From a reachable state, any [k] values, [k] at
    most the number of free slots, pushed one after the other are all
    accepted; the pops that follow all succeed and yield first the
    elements that were already enqueued, oldest first, and then the pushed
    values in the order of the pushes; after them the queue is empty.
    Either side may use the locked or the already-exclusive entry point. *)
Theorem fifo_round_trip (producer_locked consumer_locked : bool)
    (m : machine) (vs outs : list T) :
  reachable m →
  Z.of_nat (length vs) ≤ MAX_SIZE (que m) - current_size (que m) →
  length outs = length (contents (que m) ++ vs) →
  ∃ m1 m2,
    run (push_call producer_locked <$> vs) m = Some (replicate (length vs) (RBool true), m1) ∧
    run (pop_call consumer_locked <$> outs) m1 =
      Some (RPop true <$> (contents (que m) ++ vs), m2) ∧
    current_size (que m2) = 0.
Proof.
  intros Hreach Hfree Hlen. apply reachable_inv in Hreach.
  destruct (run_push_calls producer_locked vs m Hreach Hfree)
    as (m1 & Hpush & Hinv1 & Hc1).
  destruct (run_pop_calls consumer_locked (contents (que m) ++ vs) outs m1 [])
    as (m2 & Hpop & Hinv2 & Hc2); [done|by rewrite app_nil_r|done|].
  exists m1, m2. do 2 (split; [done|]).
  destruct Hinv2 as [_ _ [Hl _]]. rewrite Hc2 in Hl. cbn in Hl. lia.
Qed.

(** C4.  Failure atomicity and idempotence.  A push or emplace on a full
    queue returns [false] and leaves the queue as it was (the
    already-exclusive forms leave the whole machine as it was; the locked
    forms go through [lock()] and [unlock()] and nothing else); a pop on
    an empty queue returns [false], leaves the queue as it was and hands
    [out] back untouched.  Repeated [k] times, the failing call fails [k]
    times and the queue, hence its size, is still the same. *)
Theorem failure_atomicity (m : machine) (value out : T) (args : Args) (k : nat) :
  (current_size (que m) = MAX_SIZE (que m) →
     push_from_unlocked value m = Some (false, m) ∧
     emplace_from_unlocked args m = Some (false, m) ∧
     push value m = Some (false, after_unlock (after_lock m)) ∧
     emplace args m = Some (false, after_unlock (after_lock m)) ∧
     run (replicate k (PushFromUnlocked value)) m =
       Some (replicate k (RBool false), m) ∧
     ∃ m', run (replicate k (Push value)) m =
             Some (replicate k (RBool false), m') ∧
           que m' = que m) ∧
  (current_size (que m) = 0 →
     pop_from_unlocked out m = Some ((false, out), m) ∧
     pop_from_unlocked_discard m = Some (false, m) ∧
     pop out m = Some ((false, out), after_unlock (after_lock m)) ∧
     pop_discard m = Some (false, after_unlock (after_lock m)) ∧
     run (replicate k (PopFromUnlocked out)) m =
       Some (replicate k (RPop false out), m) ∧
     ∃ m', run (replicate k (Pop out)) m =
             Some (replicate k (RPop false out), m') ∧
           que m' = que m).
Proof.
  split; intros Hn.
  - split; [by apply push_implementation_full|].
    split; [by apply (push_implementation_full (construct args))|].
    split; [by apply push_full|].
    split; [by apply (push_full (construct args))|].
    split.
    + apply run_replicate_fixed. cbn [exec].
      unfold fmap, M_fmap, push_from_unlocked.
      by rewrite (push_implementation_full value m Hn).
    + apply (run_replicate_quiet _ _ (que m)); [|done].
      intros m0 Hq. cbn [exec]. unfold fmap, M_fmap.
      rewrite push_full by (by rewrite Hq). eauto.
  - split; [by apply pop_implementation_empty|].
    split; [by apply pop_implementation_discard_empty|].
    split; [by apply pop_empty|].
    split; [by apply pop_discard_empty|].
    split.
    + apply run_replicate_fixed. cbn [exec].
      unfold fmap, M_fmap, pop_from_unlocked.
      by rewrite (pop_implementation_empty out m Hn).
    + apply (run_replicate_quiet _ _ (que m)); [|done].
      intros m0 Hq. cbn [exec]. unfold fmap, M_fmap.
      rewrite pop_empty by (by rewrite Hq). eauto.
Qed.

(** C5.  Every locked operation ([push], [emplace], both [pop]s, [clear],
    [empty], [full], [size], [available]) is its core operation between
    one [lock()] and one [unlock()]: the calls it adds to the trace are
    [lock()], then the constructor and destructor calls of the core
    operation, then [unlock()]; it returns the core's result, whether that
    is success or failure, and leaves the queue the core leaves.  For
    [clear] the calls in between are those of the whole drain loop.  From
    every state of the data model each of them does return. *)
Theorem locked_operations_bracket (value out : T) (args : Args) :
  (bracketed (push value) (push_from_unlocked value) ∧
   bracketed (emplace args) (emplace_from_unlocked args) ∧
   bracketed (pop out) (pop_from_unlocked out) ∧
   bracketed pop_discard pop_from_unlocked_discard ∧
   bracketed clear clear_from_unlocked ∧
   bracketed empty empty_from_unlocked ∧
   bracketed full full_from_unlocked ∧
   bracketed size size_from_unlocked ∧
   bracketed available available_from_unlocked) ∧
  ∀ m, queue_inv (que m) →
    is_Some (push value m) ∧ is_Some (emplace args m) ∧
    is_Some (pop out m) ∧ is_Some (pop_discard m) ∧ is_Some (clear m) ∧
    is_Some (empty m) ∧ is_Some (full m) ∧ is_Some (size m) ∧
    is_Some (available m).
Proof.
  split.
  - repeat split; auto using bracketed_push, bracketed_emplace, bracketed_pop,
      bracketed_pop_discard, bracketed_clear, bracketed_empty, bracketed_full,
      bracketed_size, bracketed_available.
  - intros m Hinv. pose proof Hinv as [Hok _ _].
    split; [by rewrite push_core|].
    split.
    { change (emplace args m) with (push (construct args) m).
      by rewrite push_core. }
    split; [by rewrite pop_core|].
    split; [by rewrite (pop_discard_core out)|].
    split; [by rewrite clear_spec|].
    unfold empty, full, size, available. run_M.
    do 3 (split; [by eexists|]). by eexists.
Qed.

(** C6.  Drain law.  From every reachable state [clear_from_unlocked] and
    [clear] return (the loop terminates); afterwards [size] is zero and no
    slot holds an element; the destructor calls made are exactly one for
    each element that was live, on the slot that held it, and no slot is
    destructed twice.  The locked drain makes them between its [lock()]
    and [unlock()].  The destructor of [queue_spsc_locked] is the locked
    [clear]. *)
Theorem drain_law (m : machine) :
  reachable m →
  ∃ m1 m2,
    clear_from_unlocked m = Some (tt, m1) ∧
    clear m = Some (tt, m2) ∧
    queue_spsc_locked_dtor m = Some (tt, m2) ∧
    size_from_unlocked m1 = Some (0, m1) ∧
    size_from_unlocked m2 = Some (0, m2) ∧
    (∀ i, element_at (que m1) i = None ∧ element_at (que m2) i = None) ∧
    trace m1 = trace m ++ drain_events (que m) ∧
    trace m2 = trace m ++ [EvLock] ++ drain_events (que m) ++ [EvUnlock] ∧
    NoDup (destructed_slots (drain_events (que m))) ∧
    ∀ i x, slot (que m) i = Some (Some x) ↔
           EvDestruct i x ∈ drain_events (que m).
Proof.
  intros Hinv%reachable_inv.
  eexists _, _. split; [by apply while_pop_implementation_spec|].
  split; [by apply clear_spec|]. split; [by apply clear_spec|].
  do 2 (split; [done|]).
  split; [intros i; split; apply element_at_spec_clear|].
  do 2 (split; [done|]).
  split.
  - rewrite destructed_slots_drain by done.
    apply NoDup_live_slots, Hinv.
  - intros i x. symmetry. by apply elem_of_drain_events.
Qed.

(** C7.  In every reachable state [size] lies between zero and [capacity],
    [full] answers [true] exactly when the size equals the capacity and
    [empty] exactly when it is zero; the locked queries give the answers
    of the already-exclusive ones. *)
Theorem size_bounds (m : machine) :
  reachable m →
  ∃ (n N : Z) (is_full is_empty : bool),
    size_from_unlocked m = Some (n, m) ∧
    capacity m = Some (N, m) ∧
    full_from_unlocked m = Some (is_full, m) ∧
    empty_from_unlocked m = Some (is_empty, m) ∧
    size m = Some (n, after_unlock (after_lock m)) ∧
    full m = Some (is_full, after_unlock (after_lock m)) ∧
    empty m = Some (is_empty, after_unlock (after_lock m)) ∧
    0 ≤ n ≤ N ∧
    (is_full = true ↔ n = N) ∧
    (is_empty = true ↔ n = 0).
Proof.
  intros [[] _ _]%reachable_inv.
  exists (current_size (que m)), (MAX_SIZE (que m)),
    (current_size (que m) =? MAX_SIZE (que m)), (current_size (que m) =? 0).
  do 4 (split; [done|]). split; [done|].
  split.
  { unfold full, invoke, gets, mbind, M_bind, mret, M_ret.
    cbn -[to_size_type Z.b2z]. by rewrite bool_of_size_type. }
  split.
  { unfold empty, invoke, gets, mbind, M_bind, mret, M_ret.
    cbn -[to_size_type Z.b2z]. by rewrite bool_of_size_type. }
  split; [lia|]. split; apply Z.eqb_eq.
Qed.

(** C8.  In every reachable state both indices lie in [[0, capacity)].
    Every call returns; a push or emplace succeeds exactly when the queue
    is not full, a pop exactly when it is not empty; a successful push
    moves the write index to [(write_index + 1) mod capacity] and a
    successful pop moves the read index to [(read_index + 1) mod capacity];
    a failed one moves neither, and a push never moves the read index nor
    a pop the write index.  For every [i] in [[0, N)], [N] a [size_type]
    value, [get_next_index i N = (i + 1) mod N]. *)
Theorem index_discipline (m : machine) :
  reachable m →
  (0 ≤ write_index (que m) < MAX_SIZE (que m) ∧
   0 ≤ read_index (que m) < MAX_SIZE (que m)) ∧
  (∀ c, ∃ r m', exec c m = Some (r, m') ∧
     (is_push c = true →
        succeeded r = negb (current_size (que m) =? MAX_SIZE (que m)) ∧
        read_index (que m') = read_index (que m) ∧
        write_index (que m') =
          if succeeded r
          then (write_index (que m) + 1) mod MAX_SIZE (que m)
          else write_index (que m)) ∧
     (is_pop c = true →
        succeeded r = negb (current_size (que m) =? 0) ∧
        write_index (que m') = write_index (que m) ∧
        read_index (que m') =
          if succeeded r
          then (read_index (que m) + 1) mod MAX_SIZE (que m)
          else read_index (que m))) ∧
  (∀ i N, 0 ≤ i < N → N ≤ integral_limits_max →
     get_next_index i N = (i + 1) mod N).
Proof.
  intros Hinv%reachable_inv. split; [|split].
  - destruct Hinv as [[] _ _]. done.
  - intros c. by apply exec_indices.
  - apply get_next_index_mod.
Qed.

(** C9.  With callables that do nothing, a sequence of calls through the
    locked entry points and the same sequence through the
    already-exclusive ones, from the same state, give the same replies
    and end with the same queue, the same application state and the same
    constructor and destructor calls; from a state of the data model both
    sequences run to the end. *)
Theorem locked_unlocked_equivalence (cs : list call) (m : machine) :
  (∀ e, lock e = e) → (∀ e, unlock e = e) →
  same_outcome (run cs m) (run (from_unlocked <$> cs) m) ∧
  (queue_inv (que m) → is_Some (run cs m)).
Proof.
  intros Hlock Hunlock. split.
  - by apply run_same_outcome.
  - apply run_total.
Qed.

(** C10.  In every reachable state the write index equals
    [(read_index + current_size) mod MAX_SIZE], and every call (push,
    emplace, pop, clear or query, locked or already-exclusive) returns in
    a state where it holds again. *)
Theorem ring_equation_invariant (m : machine) :
  reachable m →
  write_index (que m) =
    (read_index (que m) + current_size (que m)) mod MAX_SIZE (que m) ∧
  ∀ c, ∃ r m',
    exec c m = Some (r, m') ∧
    write_index (que m') =
      (read_index (que m') + current_size (que m')) mod MAX_SIZE (que m').
Proof.
  intros Hinv%reachable_inv. split; [apply Hinv|].
  intros c. destruct (preserves_exec c m Hinv) as (r & m' & Hexec & Hinv').
  exists r, m'. split; [done|apply Hinv'].
Qed.

(** * Further properties of the code *)

(** ** Reference definitions *)

(** A bounded first-in first-out list of capacity [N], and the reply it
    gives to each call.  The locked and the already-exclusive entry points
    are the same operation of the list. *)
Definition fifo_model (N : Z) (c : call) (xs : list T) : reply * list T :=
  match c with
  | Push v | PushFromUnlocked v =>
      if decide (Z.of_nat (length xs) = N) then (RBool false, xs)
      else (RBool true, xs ++ [v])
  | Emplace a | EmplaceFromUnlocked a =>
      if decide (Z.of_nat (length xs) = N) then (RBool false, xs)
      else (RBool true, xs ++ [construct a])
  | Pop out | PopFromUnlocked out =>
      match xs with
      | [] => (RPop false out, [])
      | x :: xs' => (RPop true x, xs')
      end
  | PopDiscard | PopDiscardFromUnlocked =>
      match xs with
      | [] => (RBool false, [])
      | _ :: xs' => (RBool true, xs')
      end
  | Clear | ClearFromUnlocked => (RVoid, [])
  | Empty | EmptyFromUnlocked => (RBool (Z.of_nat (length xs) =? 0), xs)
  | Full | FullFromUnlocked => (RBool (Z.of_nat (length xs) =? N), xs)
  | Size | SizeFromUnlocked => (RSize (Z.of_nat (length xs)), xs)
  | Available | AvailableFromUnlocked => (RSize (N - Z.of_nat (length xs)), xs)
  | Capacity | MaxSize => (RSize N, xs)
  end.

Fixpoint fifo_model_run (N : Z) (cs : list call) (xs : list T)
  : list reply * list T :=
  match cs with
  | [] => ([], xs)
  | c :: cs =>
      let '(r, xs1) := fifo_model N c xs in
      let '(rs, xs2) := fifo_model_run N cs xs1 in
      (r :: rs, xs2)
  end.

(** The queue a call leaves, and the constructor and destructor calls it
    makes, from a state of the data model. *)
Definition next_que (c : call) (q : iqueue_spsc_locked_base)
  : iqueue_spsc_locked_base :=
  match c with
  | Push v | PushFromUnlocked v =>
      if decide (current_size q = MAX_SIZE q) then q else spec_push v q
  | Emplace a | EmplaceFromUnlocked a =>
      if decide (current_size q = MAX_SIZE q) then q
      else spec_push (construct a) q
  | Pop _ | PopFromUnlocked _ | PopDiscard | PopDiscardFromUnlocked =>
      if decide (current_size q = 0) then q else spec_pop q
  | Clear | ClearFromUnlocked => spec_clear q
  | _ => q
  end.

Definition next_events (c : call) (q : iqueue_spsc_locked_base) : list event :=
  match c with
  | Push v | PushFromUnlocked v =>
      if decide (current_size q = MAX_SIZE q) then []
      else [EvConstruct (write_index q) v]
  | Emplace a | EmplaceFromUnlocked a =>
      if decide (current_size q = MAX_SIZE q) then []
      else [EvConstruct (write_index q) (construct a)]
  | Pop _ | PopFromUnlocked _ | PopDiscard | PopDiscardFromUnlocked =>
      match contents q with
      | [] => []
      | x :: _ => [EvDestruct (read_index q) x]
      end
  | Clear | ClearFromUnlocked => drain_events q
  | _ => []
  end.

(** What a locked call adds around them, and what it does to the
    application state. *)
Definition bracket_events (c : call) (evs : list event) : list event :=
  if is_locked c then [EvLock] ++ evs ++ [EvUnlock] else evs.

Definition next_env (c : call) (e : Env) : Env :=
  if is_locked c then unlock (lock e) else e.

(** The elements constructed and the elements destructed in the course of
    a trace, each with its slot, in the order of the calls; and the elements
    a queue holds, each with its slot, oldest first. *)
Definition constructions (t : list event) : list (Z * T) :=
  omap (λ e, match e with EvConstruct i v => Some (i, v) | _ => None end) t.

Definition destructions (t : list event) : list (Z * T) :=
  omap (λ e, match e with EvDestruct i v => Some (i, v) | _ => None end) t.

Definition live_elements (q : iqueue_spsc_locked_base) : list (Z * T) :=
  zip (live_slots q) (contents q).

(** The calls made to the two callables in the course of a trace. *)
Definition callable_calls (t : list event) : list event :=
  filter (λ e, ¬ data_event e) t.

(** ** One call, in full *)

Lemma length_contents q :
  queue_inv q → Z.of_nat (length (contents q)) = current_size q.
Proof. by intros [_ _ [Hlen _]]. Qed.

Lemma contents_nil_iff q : queue_inv q → contents q = [] ↔ current_size q = 0.
Proof.
  intros Hlen%length_contents. destruct (contents q); cbn in Hlen; split;
    (done || lia).
Qed.

Lemma exec_from_unlocked_step c m :
  queue_inv (que m) →
  exec (from_unlocked c) m =
    Some (fst (fifo_model (MAX_SIZE (que m)) c (contents (que m))),
          Build_machine (next_que c (que m)) (env m)
            (trace m ++ next_events c (que m))).
Proof.
  intros Hinv. pose proof Hinv as [Hok _ _]. pose proof Hok as [].
  pose proof (length_contents _ Hinv) as Hlen.
  pose proof (contents_nil_iff _ Hinv) as Hnil.
  destruct (element_at_front _ Hinv) as [Hfront _].
  assert (m = Build_machine (que m) (env m) (trace m ++ [])) as Hm
    by (rewrite app_nil_r; by destruct m).
  destruct c; cbn [exec from_unlocked fifo_model next_que next_events];
    unfold fmap, M_fmap;
    try change (emplace_from_unlocked args m)
      with (push_from_unlocked (construct args) m);
    rewrite ?Hlen.
  1-4: rewrite push_from_unlocked_core by done; unfold core_push;
    case_decide; cbn; rewrite ?app_nil_r; by destruct m.
  1-2: rewrite pop_from_unlocked_core by done; unfold core_pop;
    rewrite Hfront; destruct (contents (que m)) as [|x xs];
    case_decide as Hd;
    [ | exfalso; by apply Hd, Hnil | by apply Hnil in Hd | ];
    cbn; rewrite ?app_nil_r; by destruct m.
  1-2: destruct (contents (que m)) as [|x xs] eqn:Hc;
    [ unfold pop_from_unlocked_discard;
      rewrite pop_implementation_discard_empty by (by apply Hnil);
      rewrite decide_True by (by apply Hnil);
      cbn; rewrite app_nil_r; by destruct m
    | rewrite (pop_from_unlocked_discard_core x) by done; unfold core_pop;
      rewrite Hfront;
      assert (current_size (que m) ≠ 0) as Hn
        by (intros Hn; by apply Hnil in Hn);
      rewrite !decide_False by done; reflexivity ].
  1-2: unfold clear_from_unlocked;
    by rewrite while_pop_implementation_spec.
  all: run_M; rewrite ?to_size_type_small by lia; rewrite app_nil_r;
    by destruct m.
Qed.

Lemma exec_step c m :
  queue_inv (que m) →
  exec c m =
    Some (fst (fifo_model (MAX_SIZE (que m)) c (contents (que m))),
          Build_machine (next_que c (que m)) (next_env c (env m))
            (trace m ++ bracket_events c (next_events c (que m)))).
Proof.
  intros Hinv. pose proof (exec_from_unlocked_step c m Hinv) as Hcore.
  unfold next_env, bracket_events. destruct (is_locked c) eqn:Hc.
  - by apply (bracketed_result _ _ _ _ _ _ (bracketed_exec c Hc)).
  - by rewrite (from_unlocked_id c Hc) in Hcore.
Qed.

Lemma contents_spec_clear q : queue_inv q → contents (spec_clear q) = [].
Proof.
  intros Hinv%queue_inv_clear. by apply contents_nil_iff.
Qed.

Lemma next_que_inv c q :
  queue_inv q →
  queue_inv (next_que c q) ∧
  contents (next_que c q) = snd (fifo_model (MAX_SIZE q) c (contents q)) ∧
  MAX_SIZE (next_que c q) = MAX_SIZE q.
Proof.
  intros Hinv. pose proof (length_contents _ Hinv) as Hlen.
  pose proof (contents_nil_iff _ Hinv) as Hnil.
  destruct c; cbn [next_que fifo_model]; rewrite ?Hlen; try done.
  1-2: case_decide; [done|];
    destruct (queue_inv_push q value Hinv) as [? ?]; done.
  1-2: case_decide; [done|];
    destruct (queue_inv_push q (construct args) Hinv) as [? ?]; done.
  1-4: destruct (contents q) as [|x xs] eqn:Hc; case_decide as Hd;
    [ done | exfalso; by apply Hd, Hnil | by apply Hnil in Hd
    | destruct (queue_inv_pop q x xs Hinv Hc) as [? ?]; done ].
  1-2: split; [by apply queue_inv_clear|]; split; [|done];
    by apply contents_spec_clear.
Qed.

Lemma run_model cs m :
  queue_inv (que m) →
  ∃ m', run cs m =
          Some (fst (fifo_model_run (MAX_SIZE (que m)) cs (contents (que m))), m') ∧
        contents (que m') =
          snd (fifo_model_run (MAX_SIZE (que m)) cs (contents (que m))) ∧
        queue_inv (que m') ∧ MAX_SIZE (que m') = MAX_SIZE (que m).
Proof.
  revert m. induction cs as [|c cs IH]; intros m Hinv; [by exists m|].
  pose proof (exec_step c m Hinv) as Hexec.
  destruct (next_que_inv c _ Hinv) as (Hinv1 & Hc1 & HN1).
  set (m1 := Build_machine _ _ _) in Hexec.
  destruct (IH m1 Hinv1) as (m2 & Hrun & Hc2 & Hinv2 & HN2).
  cbn [que m1] in Hrun, Hc2, HN2. rewrite HN1, Hc1 in Hrun, Hc2.
  exists m2. cbn [fifo_model_run].
  destruct (fifo_model _ c _) as [r xs1]. cbn [fst snd] in *.
  destruct (fifo_model_run _ cs xs1) as [rs xs2]. cbn [fst snd] in *.
  split; [by eapply run_cons|]. split; [done|]. split; [done|]. congruence.
Qed.

Lemma fresh_queue SIZE e :
  valid_SIZE SIZE →
  MAX_SIZE (que (queue_spsc_locked SIZE e)) = SIZE ∧
  contents (que (queue_spsc_locked SIZE e)) = [].
Proof.
  intros HS. pose proof HS as Hinv%(queue_inv_ctor SIZE e).
  unfold valid_SIZE in HS. split.
  - cbn. by rewrite to_size_type_small by lia.
  - by apply contents_nil_iff.
Qed.

Lemma slot_write_index q :
  queue_inv q →
  slot q (write_index q) =
    Some (if decide (current_size q = MAX_SIZE q) then head (contents q)
          else None).
Proof.
  intros Hinv. pose proof Hinv as [Hok Hring [Hlen Hsl]]. pose proof Hok as [].
  rewrite Hring. case_decide as Hn.
  - rewrite Hn, ring_mod by lia. rewrite decide_False by lia.
    replace (read_index q + MAX_SIZE q - MAX_SIZE q) with (read_index q) by lia.
    destruct (element_at_front q Hinv) as [Hfront _].
    destruct (queue_inv_front q Hinv ltac:(lia)) as (x & xs & -> & Hx).
    by rewrite Hx.
  - specialize (Hsl (current_size q) ltac:(lia)). unfold ring_slot in Hsl.
    rewrite Hsl. f_equal. apply lookup_ge_None_2. lia.
Qed.

(** ** Constructions against destructions *)

Lemma constructions_app t1 t2 :
  constructions (t1 ++ t2) = constructions t1 ++ constructions t2.
Proof. apply omap_app. Qed.

Lemma destructions_app t1 t2 :
  destructions (t1 ++ t2) = destructions t1 ++ destructions t2.
Proof. apply omap_app. Qed.

Lemma constructions_bracket c evs :
  constructions (bracket_events c evs) = constructions evs.
Proof.
  unfold bracket_events. destruct (is_locked c); [|done].
  cbn. rewrite constructions_app. cbn. by rewrite app_nil_r.
Qed.

Lemma destructions_bracket c evs :
  destructions (bracket_events c evs) = destructions evs.
Proof.
  unfold bracket_events. destruct (is_locked c); [|done].
  cbn. rewrite destructions_app. cbn. by rewrite app_nil_r.
Qed.

Lemma destructions_zip (ls : list Z) (xs : list T) :
  destructions (zip_with EvDestruct ls xs) = zip ls xs ∧
  constructions (zip_with EvDestruct ls xs) = [].
Proof.
  revert xs. induction ls as [|i ls IH]; intros [|x xs]; try done.
  destruct (IH xs) as [IH1 IH2]. cbn. split; [|done].
  unfold destructions in IH1. by rewrite IH1.
Qed.

Lemma live_slots_push q v :
  queue_inv q → current_size q ≠ MAX_SIZE q →
  live_slots (spec_push v q) = live_slots q ++ [write_index q].
Proof.
  intros [[] Hring _] Hn. unfold live_slots. cbn.
  rewrite seqZ_app by lia. rewrite fmap_app. f_equal.
  rewrite seqZ_cons, seqZ_nil by lia. cbn. by rewrite Hring.
Qed.

Lemma live_elements_push q v :
  queue_inv q → current_size q ≠ MAX_SIZE q →
  live_elements (spec_push v q) = live_elements q ++ [(write_index q, v)].
Proof.
  intros Hinv Hn. unfold live_elements.
  destruct (queue_inv_push q v Hinv Hn) as [_ ->].
  rewrite live_slots_push by done.
  rewrite zip_with_app; [done|].
  rewrite length_live_slots. pose proof (length_contents q Hinv). lia.
Qed.

Lemma live_elements_pop q x xs :
  queue_inv q → contents q = x :: xs →
  live_elements q = (read_index q, x) :: live_elements (spec_pop q).
Proof.
  intros Hinv Hc. unfold live_elements.
  destruct (queue_inv_pop q x xs Hinv Hc) as [_ ->].
  rewrite live_slots_pop, Hc; [done|apply Hinv|].
  pose proof (length_contents q Hinv) as Hlen. rewrite Hc in Hlen.
  cbn in Hlen. lia.
Qed.

Lemma live_elements_empty q : current_size q = 0 → live_elements q = [].
Proof. intros Hn. unfold live_elements. by rewrite live_slots_empty. Qed.

Lemma step_balance c q :
  queue_inv q →
  live_elements q ++ constructions (next_events c q) =
  destructions (next_events c q) ++ live_elements (next_que c q).
Proof.
  intros Hinv. pose proof (contents_nil_iff _ Hinv) as Hnil.
  destruct c; cbn [next_events next_que]; try (cbn; by rewrite app_nil_r).
  1-4: case_decide; cbn; [by rewrite app_nil_r|];
    by rewrite live_elements_push.
  1-4: destruct (contents q) as [|x xs] eqn:Hc; case_decide as Hd;
    [ cbn; by rewrite app_nil_r | exfalso; by apply Hd, Hnil
    | by apply Hnil in Hd
    | cbn; rewrite app_nil_r; by apply live_elements_pop with xs ].
  1-2: unfold drain_events; destruct (destructions_zip (live_slots q)
         (contents q)) as [-> ->];
    by rewrite (live_elements_empty (spec_clear q)), !app_nil_r.
Qed.

(** Everything constructed so far is either destructed or still in the
    queue, in that order. *)
Definition lifecycle_balance (m : machine) : Prop :=
  constructions (trace m) = destructions (trace m) ++ live_elements (que m).

Lemma lifecycle_balance_run cs m rs m' :
  queue_inv (que m) → lifecycle_balance m →
  run cs m = Some (rs, m') →
  queue_inv (que m') ∧ lifecycle_balance m'.
Proof.
  revert m rs. induction cs as [|c cs IH]; intros m rs Hinv Hbal Hrun.
  { cbn in Hrun. by injection Hrun as _ <-. }
  cbn [run] in Hrun. unfold mbind, M_bind in Hrun.
  rewrite (exec_step c m Hinv) in Hrun.
  set (m1 := Build_machine _ _ _) in Hrun.
  destruct (run cs m1) as [[rs1 m2]|] eqn:Hrun1; [|done].
  injection Hrun as _ <-.
  apply (IH m1 rs1); [apply next_que_inv, Hinv| |done].
  unfold lifecycle_balance in *. cbn [trace que m1].
  rewrite constructions_app, destructions_app, constructions_bracket,
    destructions_bracket, Hbal, <- !app_assoc.
  f_equal. apply step_balance, Hinv.
Qed.

(** ** Calls to the callables *)

Lemma exec_callables c m r m' :
  exec c m = Some (r, m') →
  ∃ evs, Forall data_event evs ∧
         trace m' = trace m ++ bracket_events c evs ∧
         env m' = next_env c (env m).
Proof.
  intros Hexec. unfold bracket_events, next_env.
  destruct (is_locked c) eqn:Hc.
  - pose proof (bracketed_exec c Hc m) as Hb.
    destruct (exec (from_unlocked c) m) as [[r0 m0]|]; [|congruence].
    destruct Hb as (evs & _ & Hd & Hop). rewrite Hop in Hexec.
    injection Hexec as _ <-. by exists evs.
  - pose proof (queue_only_exec c m (env m) (trace m)) as Hq.
    rewrite (from_unlocked_id c Hc), Hexec in Hq.
    destruct Hq as (evs & He & Ht & Hd & _). by exists evs.
Qed.

Lemma callable_calls_app t1 t2 :
  callable_calls (t1 ++ t2) = callable_calls t1 ++ callable_calls t2.
Proof. apply filter_app. Qed.

Lemma callable_calls_data evs :
  Forall data_event evs → callable_calls evs = [].
Proof.
  unfold callable_calls. induction 1 as [|e evs He _ IH]; [done|].
  rewrite filter_cons_False by (by intros ?). done.
Qed.

Lemma callable_calls_bracket c evs :
  Forall data_event evs →
  callable_calls (bracket_events c evs) =
    if is_locked c then [EvLock; EvUnlock] else [].
Proof.
  intros Hd. unfold bracket_events. destruct (is_locked c).
  - rewrite !callable_calls_app, (callable_calls_data evs) by done.
    reflexivity.
  - by apply callable_calls_data.
Qed.

(** ** A drain is a run of discarding pops *)

Lemma drain_as_pops xs m :
  queue_inv (que m) → contents (que m) = xs →
  ∃ m', run (replicate (length xs) PopDiscardFromUnlocked) m =
          Some (replicate (length xs) (RBool true), m') ∧
        while_pop_implementation m = Some (tt, m') ∧
        current_size (que m') = 0.
Proof.
  revert m. induction xs as [|x xs IH]; intros m Hinv Hc.
  - assert (current_size (que m) = 0) as Hn by (by apply contents_nil_iff).
    exists m. split; [done|]. split; [|done].
    by rewrite while_pop_implementation_step,
      pop_implementation_discard_empty.
  - pose proof Hinv as [Hok _ Hrep]. rewrite Hc in Hrep.
    pose proof (represents_front _ _ _ Hok Hrep) as Hx.
    assert (current_size (que m) ≠ 0) as Hn.
    { intros Hn%contents_nil_iff; [congruence|done]. }
    pose proof (pop_implementation_discard_spec m x Hok Hn Hx) as Hpop.
    set (m1 := Build_machine _ _ _) in Hpop.
    destruct (queue_inv_pop _ _ _ Hinv Hc) as [Hinv1 Hc1].
    destruct (IH m1 Hinv1 Hc1) as (m' & Hrun & Hloop & Hzero).
    exists m'. split; [|split; [|done]].
    + cbn [length replicate]. eapply run_cons; [|exact Hrun].
      cbn [exec]. unfold fmap, M_fmap, pop_from_unlocked_discard.
      by rewrite Hpop.
    + by rewrite while_pop_implementation_step, Hpop.
Qed.

(** ** The properties *)

(** X1.  In every reachable state [available] (locked or already-exclusive)
    is the capacity minus the size, computed without wrap-around, and a
    push succeeds exactly when it is not zero. *)
Theorem available_complements_size (m : machine) (value : T) :
  reachable m →
  ∃ a n m1,
    available_from_unlocked m = Some (a, m) ∧
    available m = Some (a, after_unlock (after_lock m)) ∧
    size_from_unlocked m = Some (n, m) ∧
    a + n = MAX_SIZE (que m) ∧ 0 ≤ a ∧
    push_from_unlocked value m = Some (negb (a =? 0), m1).
Proof.
  intros Hinv%reachable_inv. pose proof Hinv as [Hok _ _]. pose proof Hok as [].
  destruct (push_outcome value m Hok) as (m1 & _ & Hpush & _ & _ & _).
  exists (MAX_SIZE (que m) - current_size (que m)), (current_size (que m)), m1.
  split; [|split; [|split; [done|split; [lia|split; [lia|]]]]].
  - run_M. by rewrite to_size_type_small by lia.
  - unfold available. run_M. by rewrite to_size_type_small by lia.
  - rewrite Hpush. do 3 f_equal.
    destruct (Z.eqb_spec (current_size (que m)) (MAX_SIZE (que m))),
      (Z.eqb_spec (MAX_SIZE (que m) - current_size (que m)) 0); (done || lia).
Qed.

(** X2.  A queue constructed with capacity [SIZE] answers every sequence
    of calls, locked or already-exclusive in any mix, as the bounded
    first-in first-out list of capacity [SIZE] started empty does, and
    afterwards holds the elements that list holds; [capacity] and
    [max_size] still answer [SIZE]. *)
Theorem fifo_refinement (SIZE : Z) (e : Env) (cs : list call) :
  valid_SIZE SIZE →
  ∃ m, run cs (queue_spsc_locked SIZE e) =
         Some (fst (fifo_model_run SIZE cs []), m) ∧
       contents (que m) = snd (fifo_model_run SIZE cs []) ∧
       capacity m = Some (SIZE, m) ∧
       max_size m = Some (SIZE, m).
Proof.
  intros HS. destruct (fresh_queue SIZE e HS) as [HN Hc].
  destruct (run_model cs _ (queue_inv_ctor SIZE e HS))
    as (m & Hrun & Hcm & _ & HNm).
  rewrite HN, Hc in Hrun, Hcm. rewrite HN in HNm.
  exists m. do 2 (split; [done|]).
  unfold capacity, max_size, gets. by rewrite HNm.
Qed.

(** X3.  Whatever calls are made on a constructed queue, none of them
    leaves defined behaviour; the elements constructed so far are, in the
    order of their construction and each on its slot, the elements
    destructed so far followed by the elements still enqueued; and the
    destructor of the queue then returns with every constructed element
    destructed, once each. *)
Theorem element_lifecycle (SIZE : Z) (e : Env) (cs : list call) :
  valid_SIZE SIZE →
  ∃ rs m m_end,
    run cs (queue_spsc_locked SIZE e) = Some (rs, m) ∧
    constructions (trace m) =
      destructions (trace m) ++ live_elements (que m) ∧
    queue_spsc_locked_dtor m = Some (tt, m_end) ∧
    constructions (trace m_end) = destructions (trace m_end).
Proof.
  intros HS. pose proof (queue_inv_ctor SIZE e HS) as Hinv0.
  destruct (run_total cs _ Hinv0) as [[rs m] Hrun].
  destruct (lifecycle_balance_run cs _ rs m Hinv0) as [Hinv Hbal]; [|done|].
  { unfold lifecycle_balance. cbn [trace queue_spsc_locked].
    by rewrite live_elements_empty. }
  eexists rs, m, _. split; [done|]. split; [done|].
  split; [by apply clear_spec|]. cbn [trace].
  change ([EvLock] ++ drain_events (que m) ++ [EvUnlock])
    with (bracket_events Clear (drain_events (que m))).
  rewrite constructions_app, destructions_app, constructions_bracket,
    destructions_bracket.
  unfold drain_events.
  destruct (destructions_zip (live_slots (que m)) (contents (que m)))
    as [-> ->].
  by rewrite app_nil_r.
Qed.

(** X4.  In every reachable state the slot at the write index is inside
    the buffer; while the queue is not full it holds no element, so a push
    never constructs over a live one; when the queue is full the write
    index has caught up with the read index and the slot holds the oldest
    element, which the failing push leaves alone. *)
Theorem write_slot_is_free (m : machine) :
  reachable m →
  slot (que m) (write_index (que m)) =
    Some (if decide (current_size (que m) = MAX_SIZE (que m))
          then head (contents (que m)) else None) ∧
  (current_size (que m) = MAX_SIZE (que m) →
   write_index (que m) = read_index (que m) ∧ contents (que m) ≠ []).
Proof.
  intros Hinv%reachable_inv. split; [by apply slot_write_index|].
  intros Hn. pose proof Hinv as [[] Hring _]. split.
  - rewrite Hring, Hn, ring_mod by lia. rewrite decide_False by lia. lia.
  - intros Hnil%contents_nil_iff; [lia|done].
Qed.

(** X5.  Over any sequence of calls that returns, the calls made to the
    callables are one [lock()] immediately followed, as far as the
    callables are concerned, by one [unlock()] for each locked call, in
    the order of the calls, and none for an already-exclusive call; the
    application state has gone through [lock] then [unlock] once per
    locked call and is untouched by the others. *)
Theorem lock_discipline (cs : list call) (m : machine) rs m' :
  run cs m = Some (rs, m') →
  callable_calls (trace m') =
    callable_calls (trace m) ++
    (cs ≫= λ c, if is_locked c then [EvLock; EvUnlock] else []) ∧
  env m' = foldl (λ e c, next_env c e) (env m) cs.
Proof.
  revert m rs. induction cs as [|c cs IH]; intros m rs Hrun.
  { cbn in Hrun. injection Hrun as _ <-. cbn. by rewrite app_nil_r. }
  cbn [run] in Hrun. unfold mbind, M_bind in Hrun.
  destruct (exec c m) as [[r m1]|] eqn:Hexec; [|done].
  destruct (run cs m1) as [[rs1 m2]|] eqn:Hrun1; [|done].
  injection Hrun as _ <-.
  destruct (exec_callables c m r m1 Hexec) as (evs & Hd & Ht & He).
  destruct (IH m1 rs1 Hrun1) as [IHt IHe].
  rewrite IHt, IHe, Ht, He, callable_calls_app, callable_calls_bracket by done.
  cbn. by rewrite <- app_assoc.
Qed.

(** X6.  From a reachable state a drain is exactly [size] discarding pops:
    each of them succeeds and they end in the very machine
    [clear_from_unlocked] ends in; there one more pop fails and a second
    drain changes nothing. *)
Theorem clear_is_repeated_pop (m : machine) :
  reachable m →
  let n := Z.to_nat (current_size (que m)) in
  ∃ m',
    run (replicate n PopDiscardFromUnlocked) m =
      Some (replicate n (RBool true), m') ∧
    clear_from_unlocked m = Some (tt, m') ∧
    pop_from_unlocked_discard m' = Some (false, m') ∧
    clear_from_unlocked m' = Some (tt, m').
Proof.
  intros Hinv%reachable_inv. cbn zeta.
  destruct (drain_as_pops (contents (que m)) m Hinv eq_refl)
    as (m' & Hrun & Hloop & Hzero).
  replace (length (contents (que m))) with (Z.to_nat (current_size (que m)))
    in Hrun by (pose proof (length_contents _ Hinv); lia).
  exists m'. do 2 (split; [done|]).
  unfold pop_from_unlocked_discard, clear_from_unlocked.
  rewrite while_pop_implementation_step.
  by rewrite pop_implementation_discard_empty.
Qed.

End QueueSpscLocked.

(** * A concrete queue

  Integers in a queue of capacity two with an 8-bit [size_type].  The
  application state is the interrupt-enable flag: [lock] clears it and
  [unlock] sets it.  [emplace] takes the integer itself. *)

Section Instance.

Definition irq_disable : @ifunction bool := λ _, false.
Definition irq_enable : @ifunction bool := λ _, true.
Definition nop : @ifunction bool := λ e, e.
Definition of_int : Z → Z := λ a, a.

(** The freshly constructed queue. *)
Definition fresh : @machine Z bool := queue_spsc_locked 8 2 true.

(** After [push(7)]. *)
Definition one_queued : @machine Z bool :=
  Build_machine (Build_base [Some 7; None] 1 0 1 2) true
    [EvLock; EvConstruct 0 7; EvUnlock].

(** A full queue, and an empty one whose indices have wrapped. *)
Definition two_queued : @machine Z bool :=
  Build_machine (Build_base [Some 7; Some 8] 0 0 2 2) true [].

Definition drained : @machine Z bool :=
  Build_machine (Build_base [None; None] 1 1 0 2) true [].

(** The scenario of the specification: capacity four, five pushes, a pop,
    a push into the freed slot, then pops until the queue is empty. *)
Example capacity_four_scenario :
  fst <$> run of_int 8 irq_disable irq_enable
            [Push 1; Push 2; Push 3; Push 4; Size; Push 5; Size; Pop 0; Size;
             Push 5; Size; Pop 0; Pop 0; Pop 0; Pop 0; Pop 0]
            (queue_spsc_locked 8 4 true) =
  Some [RBool true; RBool true; RBool true; RBool true; RSize 4;
        RBool false; RSize 4; RPop true 1; RSize 3; RBool true; RSize 4;
        RPop true 2; RPop true 3; RPop true 4; RPop true 5; RPop false 0].
Proof. reflexivity. Qed.

Ltac concrete_ok :=
  split; unfold integral_limits_max, size_type_modulus; cbn; lia.

Ltac concrete_inv :=
  split;
  [ concrete_ok
  | reflexivity
  | split; [reflexivity|];
    let j := fresh "j" in
    let Hj := fresh "Hj" in
    intros j Hj; cbn in Hj;
    assert (j = 0 ∨ j = 1) as [-> | ->] by lia; reflexivity ].

Ltac concrete_reachable :=
  apply (reachable_exec _ _ _ _ fresh (Push 7) (RBool true));
  [ apply reachable_ctor;
    unfold valid_SIZE, integral_limits_max, size_type_modulus; cbn; lia
  | reflexivity ].

Lemma push_emplace_spec_witness :
  queue_ok 8 (que one_queued) ∧
  push_from_unlocked 8 9 one_queued = Some (core_push 9 one_queued) ∧
  push 8 irq_disable irq_enable 9 one_queued =
    Some (guarded irq_disable irq_enable (core_push 9) one_queued) ∧
  emplace_from_unlocked of_int 8 9 one_queued =
    Some (core_push (of_int 9) one_queued) ∧
  emplace of_int 8 irq_disable irq_enable 9 one_queued =
    Some (guarded irq_disable irq_enable (core_push (of_int 9)) one_queued).
Proof.
  split; [concrete_ok|].
  apply (push_emplace_spec of_int 8 irq_disable irq_enable one_queued 9 9).
  concrete_ok.
Defined.

Lemma pop_spec_witness :
  queue_inv 8 (que one_queued) ∧
  pop_from_unlocked 8 0 one_queued = Some (core_pop 0 one_queued) ∧
  core_pop 0 one_queued =
    ((true, 7),
     Build_machine (Build_base [None; None] 1 1 0 2) true
       [EvLock; EvConstruct 0 7; EvUnlock; EvDestruct 0 7]).
Proof.
  split; [concrete_inv|]. split; [|reflexivity].
  apply (pop_spec 8 irq_disable irq_enable one_queued 0).
  concrete_inv.
Defined.

Lemma fifo_round_trip_witness :
  ∃ m1 m2,
    run of_int 8 irq_disable irq_enable (push_call false <$> [8]) one_queued =
      Some ([RBool true], m1) ∧
    run of_int 8 irq_disable irq_enable (pop_call true <$> [0; 0]) m1 =
      Some ([RPop true 7; RPop true 8], m2) ∧
    current_size (que m2) = 0.
Proof.
  apply (fifo_round_trip of_int 8 irq_disable irq_enable false true
           one_queued [8] [0; 0]).
  - concrete_reachable.
  - cbn. lia.
  - reflexivity.
Defined.

Lemma failure_atomicity_witness :
  (current_size (que two_queued) = MAX_SIZE (que two_queued) ∧
   push 8 irq_disable irq_enable 9 two_queued =
     Some (false, after_unlock irq_enable (after_lock irq_disable two_queued))) ∧
  (current_size (que drained) = 0 ∧
   pop_from_unlocked 8 5 drained = Some ((false, 5), drained)).
Proof.
  split; (split; [reflexivity|]).
  - apply (failure_atomicity of_int 8 irq_disable irq_enable
             two_queued 9 5 9 3).
    reflexivity.
  - apply (failure_atomicity of_int 8 irq_disable irq_enable
             drained 9 5 9 3).
    reflexivity.
Defined.

Lemma locked_operations_bracket_witness :
  queue_inv 8 (que one_queued) ∧
  is_Some (clear 8 irq_disable irq_enable one_queued).
Proof.
  split; [concrete_inv|].
  apply (locked_operations_bracket of_int 8 irq_disable irq_enable 9 0 9).
  concrete_inv.
Defined.

Lemma drain_law_witness :
  ∃ m1, clear_from_unlocked 8 one_queued = Some (tt, m1) ∧
        size_from_unlocked m1 = Some (0, m1).
Proof.
  destruct (drain_law of_int 8 irq_disable irq_enable one_queued)
    as (m1 & m2 & H1 & _ & _ & H4 & _).
  - concrete_reachable.
  - exists m1. split; assumption.
Defined.

Lemma size_bounds_witness :
  ∃ n N, size_from_unlocked one_queued = Some (n, one_queued) ∧
         capacity one_queued = Some (N, one_queued) ∧ 0 ≤ n ≤ N.
Proof.
  destruct (size_bounds of_int 8 irq_disable irq_enable one_queued)
    as (n & N & f & e & H1 & H2 & _ & _ & _ & _ & _ & H8 & _).
  - concrete_reachable.
  - exists n, N. repeat split; tauto.
Defined.

Lemma index_discipline_witness :
  (0 ≤ write_index (que one_queued) < MAX_SIZE (que one_queued) ∧
   0 ≤ read_index (que one_queued) < MAX_SIZE (que one_queued)) ∧
  get_next_index 8 1 2 = (1 + 1) mod 2.
Proof.
  destruct (index_discipline of_int 8 irq_disable irq_enable one_queued)
    as (Hrange & _ & Hnext).
  - concrete_reachable.
  - split; [exact Hrange|].
    apply Hnext; unfold integral_limits_max, size_type_modulus; cbn; lia.
Defined.

Lemma locked_unlocked_equivalence_witness :
  same_outcome
    (run of_int 8 nop nop [Push 8; Pop 0; Size] one_queued)
    (run of_int 8 nop nop [PushFromUnlocked 8; PopFromUnlocked 0;
                           SizeFromUnlocked] one_queued) ∧
  is_Some (run of_int 8 nop nop [Push 8; Pop 0; Size] one_queued).
Proof.
  destruct (locked_unlocked_equivalence of_int 8 nop nop
              [Push 8; Pop 0; Size] one_queued) as [Hsame Hruns].
  - reflexivity.
  - reflexivity.
  - split; [exact Hsame|]. apply Hruns. concrete_inv.
Defined.

Lemma ring_equation_invariant_witness :
  write_index (que one_queued) =
    (read_index (que one_queued) + current_size (que one_queued))
      mod MAX_SIZE (que one_queued).
Proof.
  apply (ring_equation_invariant of_int 8 irq_disable irq_enable one_queued).
  concrete_reachable.
Defined.

(** After [push(7)] and [push(8)]: the queue is full. *)
Definition both_queued : @machine Z bool :=
  Build_machine (Build_base [Some 7; Some 8] 0 0 2 2) true
    [EvLock; EvConstruct 0 7; EvUnlock; EvLock; EvConstruct 1 8; EvUnlock].

Ltac concrete_reachable_full :=
  apply (reachable_exec _ _ _ _ one_queued (Push 8) (RBool true));
  [ concrete_reachable | reflexivity ].

Ltac concrete_valid_SIZE :=
  unfold valid_SIZE, integral_limits_max, size_type_modulus; cbn; lia.

Lemma available_complements_size_witness :
  ∃ a n m1,
    available_from_unlocked 8 one_queued = Some (a, one_queued) ∧
    size_from_unlocked one_queued = Some (n, one_queued) ∧
    a + n = 2 ∧
    push_from_unlocked 8 9 one_queued = Some (negb (a =? 0), m1).
Proof.
  destruct (available_complements_size of_int 8 irq_disable irq_enable
              one_queued 9)
    as (a & n & m1 & H1 & _ & H3 & H4 & _ & H6).
  - concrete_reachable.
  - exists a, n, m1. repeat split; assumption.
Defined.

Lemma fifo_refinement_witness :
  ∃ m, run of_int 8 irq_disable irq_enable
         [Push 1; PushFromUnlocked 2; Emplace 3; Pop 0; Available]
         (queue_spsc_locked 8 2 true) =
         Some ([RBool true; RBool true; RBool false; RPop true 1; RSize 1], m) ∧
       contents (que m) = [2].
Proof.
  destruct (fifo_refinement of_int 8 irq_disable irq_enable 2 true
              [Push 1; PushFromUnlocked 2; Emplace 3; Pop 0; Available])
    as (m & Hrun & Hc & _).
  - concrete_valid_SIZE.
  - exists m. split; [exact Hrun|exact Hc].
Defined.

Lemma element_lifecycle_witness :
  ∃ rs m m_end,
    run of_int 8 irq_disable irq_enable [Push 1; Push 2; Pop 0]
      (queue_spsc_locked 8 2 true) = Some (rs, m) ∧
    queue_spsc_locked_dtor 8 irq_disable irq_enable m = Some (tt, m_end) ∧
    constructions (trace m_end) = destructions (trace m_end).
Proof.
  destruct (element_lifecycle of_int 8 irq_disable irq_enable 2 true
              [Push 1; Push 2; Pop 0])
    as (rs & m & m_end & Hrun & _ & Hdtor & Hbal).
  - concrete_valid_SIZE.
  - exists rs, m, m_end. repeat split; assumption.
Defined.

Lemma write_slot_is_free_witness :
  slot (que one_queued) (write_index (que one_queued)) = Some None ∧
  write_index (que both_queued) = read_index (que both_queued).
Proof.
  split.
  - apply (write_slot_is_free of_int 8 irq_disable irq_enable one_queued).
    concrete_reachable.
  - apply (write_slot_is_free of_int 8 irq_disable irq_enable both_queued).
    + concrete_reachable_full.
    + reflexivity.
Defined.

Lemma lock_discipline_witness :
  callable_calls (trace both_queued) =
    [EvLock; EvUnlock; EvLock; EvUnlock] ∧
  env both_queued = true.
Proof.
  apply (lock_discipline of_int 8 irq_disable irq_enable
           [Push 7; SizeFromUnlocked; Push 8] (queue_spsc_locked 8 2 true)
           [RBool true; RSize 1; RBool true] both_queued).
  reflexivity.
Defined.

Lemma clear_is_repeated_pop_witness :
  ∃ m',
    run of_int 8 irq_disable irq_enable
      (replicate 2 PopDiscardFromUnlocked) both_queued =
      Some (replicate 2 (RBool true), m') ∧
    clear_from_unlocked 8 both_queued = Some (tt, m').
Proof.
  destruct (clear_is_repeated_pop of_int 8 irq_disable irq_enable both_queued)
    as (m' & Hrun & Hclear & _).
  - concrete_reachable_full.
  - exists m'. split; [exact Hrun|exact Hclear].
Defined.

End Instance.
